(** * HBuster: the candidate generator and the job scheduler of [hbuster.py]

    A shallow embedding of [Charset], [CharsetGenerator], the start-up code
    of [hbuster] and the worker loop of [HBusterSession], followed by the
    properties of the specification that were checked against them.

    Conventions.
    - A Python [int] is a [Z].
    - A Python [str] is the list of its code points ([str := list Z]);
      [ord] and [chr] convert between a one-character string position and
      its code point.  Python's [chr] raises [ValueError] outside
      [range(0x110000)]; the source only applies it to values lying between
      the code points of two characters of its input (lemma
      [iter_piece_bounds]), so that limit is never reached and [chr] is
      total here.
    - Code that can raise returns a [res]: [Ok v] or [Raise e]. *)

From stdpp Require Import gmap list strings.
From Stdlib Require Import ZArith Lia.

Local Open Scope Z_scope.

(** ** Python values used by the program *)

Definition str := list Z.

(** A string literal of the development's text, as a Python [str]. *)
Definition py (s : string) : str :=
  map (fun a => Z.of_N (Ascii.N_of_ascii a)) (String.list_ascii_of_string s).

Inductive exn :=
  | ValueError
  | TypeError
  | IndexError
  | BadParameter
  | ClientError.

Inductive res (A : Type) :=
  | Ok (a : A)
  | Raise (e : exn).
Arguments Ok {A} a.
Arguments Raise {A} e.

(** [ord] of a character given by its code point, and [ord] of an arbitrary
    string, which raises [TypeError] unless the string has length one. *)
Definition ord (c : Z) : Z := c.
Definition ord_of (s : str) : res Z :=
  match s with
  | [c] => Ok (ord c)
  | _ => Raise TypeError
  end.
Definition chr (i : Z) : str := [i].

(** [''.join(p)] *)
Definition join (p : list str) : str := concat p.

(** [sum(xs)] *)
Definition sum (xs : list Z) : Z := foldr Z.add 0 xs.

(** [sep.join(xs)] *)
Fixpoint sep_join (sep : str) (xs : list str) : str :=
  match xs with
  | [] => []
  | [x] => x
  | x :: xs' => x ++ sep ++ sep_join sep xs'
  end.

(** ** Charset *)

Module Charset.

(** A piece is the 1-tuple [(block,)] or the 2-tuple [(char1, char2)]. *)
Inductive piece :=
  | Lit (block : str)
  | Range (char1 char2 : Z).

(** [piece[0]] *)
Definition piece0 (p : piece) : str :=
  match p with
  | Lit block => block
  | Range char1 _ => chr char1
  end.

Record t := { pieces : list piece; sizes : list Z }.

(** What [PIECE_PATTERN.match(piece)] returns when it matches: groups 1
    and 2, or group 3. *)
Inductive groups :=
  | G12 (char1 char2 : Z)
  | G3 (block : str).

Definition newline : Z := 10.
Definition hyphen : Z := 45.

(** The regular expression [.] matches every character but a newline. *)
Definition dot (c : Z) : bool := negb (c =? newline).

(** The longest run of [.] at the head of a string, and what follows. *)
Fixpoint dots (s : str) : str * str :=
  match s with
  | [] => ([], [])
  | c :: s' => if dot c then let '(r, k) := dots s' in (c :: r, k)
               else ([], s)
  end.

(** [re.compile(r'^(?:(.)-(.))|(.+)$').match]: the first alternative needs
    only a prefix [X-Y]; the second one needs a non-empty run of [.] up to
    the end of the string, or up to a newline that ends it. *)
Definition PIECE_PATTERN_match (s : str) : option groups :=
  match s with
  | c1 :: h :: c2 :: _ =>
      if dot c1 && (h =? hyphen) && dot c2 then Some (G12 c1 c2)
      else match dots s with
           | ((_ :: _) as r, []) => Some (G3 r)
           | ((_ :: _) as r, [n]) => Some (G3 r)
           | _ => None
           end
  | _ => match dots s with
         | ((_ :: _) as r, []) => Some (G3 r)
         | ((_ :: _) as r, [n]) => Some (G3 r)
         | _ => None
         end
  end.

(** One turn of the loop of [__init__]: the piece and the size it appends. *)
Definition init_piece (s : str) : res (piece * Z) :=
  match PIECE_PATTERN_match s with
  | None => Raise ValueError
  | Some (G3 block) => Ok (Lit block, 1)
  | Some (G12 char1 char2) =>
      if char1 =? char2 then Ok (Lit (chr char1), 1)
      else
        let '(char1, char2) :=
          if ord char1 >? ord char2 then (char2, char1) else (char1, char2) in
        Ok (Range char1 char2, ord char2 - ord char1)
  end.

Fixpoint init_loop (specs : list str) (acc : t) : res t :=
  match specs with
  | [] => Ok acc
  | s :: specs' =>
      match init_piece s with
      | Raise e => Raise e
      | Ok (p, n) =>
          init_loop specs' {| pieces := pieces acc ++ [p]; sizes := sizes acc ++ [n] |}
      end
  end.

(** The constructor [Charset], applied to the piece specifications. *)
Definition init (specs : list str) : res t :=
  init_loop specs {| pieces := []; sizes := [] |}.

(** [__len__] *)
Definition len (cs : t) : Z := sum (sizes cs).

(** What one piece contributes to [__iter__]. *)
Definition iter_piece (p : piece) : list str :=
  match p with
  | Lit block => [block]
  | Range char1 char2 =>
      map chr (seqZ (ord char1) (ord char2 - ord char1))
  end.

(** [__iter__], as the list of what it yields. *)
Definition iter (cs : t) : list str := concat (map iter_piece (pieces cs)).

(** The loop of [__getitem__] over [zip(self.pieces, self.sizes)]; falling
    out of the loop returns [None]. *)
Fixpoint getitem_loop (ps : list (piece * Z)) (index : Z) : res (option str) :=
  match ps with
  | [] => Ok None
  | (p, size) :: ps' =>
      if index >=? size then getitem_loop ps' (index - size)
      else if size =? 1 then Ok (Some (piece0 p))
      else match ord_of (piece0 p) with
           | Ok o => Ok (Some (chr (o + index)))
           | Raise e => Raise e
           end
  end.

(** [__getitem__]; a negative index is first replaced by [len(self) - index]. *)
Definition remap (cs : t) (index : Z) : Z :=
  if index <? 0 then len cs - index else index.

Definition getitem (cs : t) (index : Z) : res (option str) :=
  getitem_loop (zip (pieces cs) (sizes cs)) (remap cs index).

(** ['-'.join(piece)] *)
Definition piece_str (p : piece) : str :=
  match p with
  | Lit block => sep_join [hyphen] [block]
  | Range char1 char2 => sep_join [hyphen] [chr char1; chr char2]
  end.

(** [__str__] *)
Definition to_str (cs : t) : str := sep_join [44] (map piece_str (pieces cs)).

End Charset.

(** ** CharsetType *)

Module CharsetType.

(** The parameter type of the [--chars] option is built with the separator
    [,] and the escape character [\]. *)
Record t := { split : Z; escape : Z }.

Definition chars_option : t := {| split := 44; escape := 92 |}.

(** The loop of [splitByExcaped] and the two tests that follow it. *)
Fixpoint split_loop (ty : t) (string : str) (pieces : list str) (current : str)
    (escaped : bool) : res (list str) :=
  match string with
  | [] =>
      let pieces := match current with [] => pieces | _ :: _ => pieces ++ [current] end in
      if escaped then Raise ValueError else Ok pieces
  | c :: string' =>
      if escaped then split_loop ty string' pieces (current ++ [c]) false
      else if c =? escape ty then split_loop ty string' pieces current true
      else if c =? split ty then
        match current with
        | [] => split_loop ty string' pieces current false
        | _ :: _ => split_loop ty string' (pieces ++ [current]) [] false
        end
      else split_loop ty string' pieces (current ++ [c]) false
  end.

Definition splitByExcaped (ty : t) (string : str) : res (list str) :=
  split_loop ty string [] [] false.

(** [convert] of a string value. *)
Definition convert (ty : t) (value : str) : res Charset.t :=
  match splitByExcaped ty value with
  | Raise e => Raise e
  | Ok pieces =>
      match Charset.init pieces with
      | Raise e => Raise e
      | Ok charset => if Charset.len charset =? 0 then Raise ValueError else Ok charset
      end
  end.

End CharsetType.

(** ** CharsetGenerator *)

Module CharsetGenerator.

Record t := { chars : Charset.t; mi : Z; ma : Z }.

(** [itertools.product(pool, repeat=n)] for [n >= 0]: the rightmost
    position varies fastest. *)
Fixpoint tuples (pool : list str) (n : nat) : list (list str) :=
  match n with
  | O => [[]]
  | S n' => x ← pool; cons x <$> tuples pool n'
  end.

(** [itertools.product(pool, repeat=l)]; a negative [repeat] is refused. *)
Definition product (pool : list str) (l : Z) : res (list (list str)) :=
  if l <? 0 then Raise ValueError else Ok (tuples pool (Z.to_nat l)).

(** [range(a, b)] *)
Definition range (a b : Z) : list Z := seqZ a (b - a).

(** The generator [__iter__] run to its end: what it yields, and the
    exception that stopped it, if one did. *)
Fixpoint iter_loop (pool : list str) (ls : list Z) : list str * option exn :=
  match ls with
  | [] => ([], None)
  | l :: ls' =>
      match product pool l with
      | Raise e => ([], Some e)
      | Ok ps => let '(out, e) := iter_loop pool ls' in (map join ps ++ out, e)
      end
  end.

Definition iter (g : t) : list str * option exn :=
  iter_loop (Charset.iter (chars g)) (range (mi g) (ma g + 1)).

(** The strings the generator yields. *)
Definition yields (g : t) : list str := fst (iter g).

End CharsetGenerator.

(** ** The start-up code of [hbuster] *)

(** Truth value of the [dirlist] option: [None] and the empty string are false. *)
Definition truthy (dirlist : option str) : bool :=
  match dirlist with
  | None => false
  | Some [] => false
  | Some (_ :: _) => true
  end.

(** The range check at the head of [hbuster]. *)
Definition hbuster_check (dirlist : option str) (min max : Z) : res unit :=
  if truthy dirlist && (min >? max) then Raise BadParameter else Ok tt.

(** The extensions handed to the session.  The parameter is overwritten by
    [['']] before it is read, and the comprehension runs over that list. *)
Definition hbuster_extensions (extensions : option str) : list str :=
  let extensions : option (list str) := Some [[]] in
  match extensions with
  | Some exts => exts ++ map (fun ext => py "." ++ ext) exts
  | None => []
  end.

(** [host[:-1]] when [host[-1] == '/']. *)
Definition hbuster_host (host : str) : res str :=
  match last host with
  | None => Raise IndexError
  | Some c => if c =? 47 then Ok (removelast host) else Ok host
  end.

(** ** HBusterSession *)

(** [str.isspace] for one character. *)
Definition isspace (c : Z) : bool :=
  ((9 <=? c) && (c <=? 13)) || ((28 <=? c) && (c <=? 32))
  || (c =? 133) || (c =? 160) || (c =? 5760)
  || ((8192 <=? c) && (c <=? 8202)) || (c =? 8232) || (c =? 8233)
  || (c =? 8239) || (c =? 8287) || (c =? 12288).

Fixpoint lstrip (s : str) : str :=
  match s with
  | [] => []
  | c :: s' => if isspace c then lstrip s' else s
  end.

(** [s.strip()] *)
Definition strip (s : str) : str := rev (lstrip (rev (lstrip s))).

(** [s.split(sep)] for a one-character separator. *)
Fixpoint split (sep : Z) (s : str) : list str :=
  match s with
  | [] => [[]]
  | c :: s' =>
      if c =? sep then [] :: split sep s'
      else match split sep s' with
           | h :: t => (c :: h) :: t
           | [] => [[c]]
           end
  end.

(** A value a response can carry as its status.  Python compares it with the
    strings of [validStatus] by [==], and an [int] never equals a [str]. *)
Inductive pyval :=
  | PyInt (z : Z)
  | PyStr (s : str).

Definition py_in (v : pyval) (S : gset str) : bool :=
  match v with
  | PyInt _ => false
  | PyStr s => bool_decide (s ∈ S)
  end.

(** The outcome of one request: a response with its status, or a transport
    error raised by [self.session.get] on entering the [async with]. *)
Inductive response :=
  | Status (v : pyval)
  | Failed.

(** The class of the responses.  [start] opens an [aiohttp.ClientSession]:
    the status of its responses is an [int] attribute, and the call
    [resp.status()] of [testPath] raises [TypeError].  [StandIn] is a client
    whose responses have a coroutine method [status]; the program never
    opens one, and it is there to say what the worker loop does once a test
    returns. *)
Inductive http_client :=
  | Aiohttp
  | StandIn.

Module Session.

(** The fields [__init__] fixes, and the client [start] opens.  [candidates]
    is what a fresh source yields: the lines of the word list, or the
    strings of the generator. *)
Record config := {
  numTasks : nat;
  candidates : list str;
  recursive : bool;
  extensions : list str;
  validStatus : gset str;
  host : str;
  client : http_client
}.

(** [set(validStatus.split(','))] *)
Definition parse_status (status : str) : gset str := list_to_set (split 44 status).

(** The fields the workers change, and what [click.echo] has printed. *)
Record t := {
  workPools : list str;
  poolFiles : list (list str);
  seen : gset str;
  found : list str;
  requests : Z;
  echoed : list str
}.

(** Where a worker stands between two steps of the event loop: at the head
    of its loop; in [testPath], waiting for the answer to its request; in
    [testPath], past the body of the [async with] and waiting in its exit,
    with what the body returns or raises; out of the loop; ended by an
    exception. *)
Inductive worker :=
  | AtLoop
  | InTestPath (path fileExt : str) (rest : list str)
  | Leaving (path fileExt : str) (rest : list str) (out : res bool)
  | Returned
  | Raised (e : exn).

Record state := { session : t; workers : list worker }.

(** [__init__]: the root job, its source, and the seeded [seen]. *)
Definition init (c : config) : t :=
  {| workPools := [[]];
     poolFiles := [candidates c];
     seen := {[ [] ]};
     found := [];
     requests := 0;
     echoed := [] |}.

(** [start]: one task per id in [range(numTasks)]. *)
Definition start (c : config) : state :=
  {| session := init c; workers := replicate (numTasks c) AtLoop |}.

(** The next turn of [for fileExt in self.extensions]. *)
Definition next_ext (path : str) (rest : list str) : worker :=
  match rest with
  | [] => AtLoop
  | fileExt :: rest' => InTestPath path fileExt rest'
  end.

(** From the head of the [while] loop to the next suspension point. *)
Definition loop_turn (c : config) (id : nat) (s : t) : t * worker :=
  match workPools s with
  | [] => (s, Returned)
  | _ :: _ =>
      let currentJob := (id mod length (workPools s))%nat in
      match workPools s !! currentJob, poolFiles s !! currentJob with
      | Some confirmed, Some [] =>
          ({| workPools := delete currentJob (workPools s);
              poolFiles := delete currentJob (poolFiles s);
              seen := seen s; found := found s;
              requests := requests s; echoed := echoed s |}, AtLoop)
      | Some confirmed, Some (line :: file) =>
          let s' := {| workPools := workPools s;
                       poolFiles := <[currentJob := file]> (poolFiles s);
                       seen := seen s; found := found s;
                       requests := requests s; echoed := echoed s |} in
          let extension := strip line in
          let path := confirmed ++ py "/" ++ extension in
          if bool_decide (path ∈ seen s) then (s', AtLoop)
          else (s', next_ext path (extensions c))
      | _, _ => (s, Raised IndexError)
      end
  end.

(** [testPath], from the answer to its request to the end of the body of
    its [async with]: what it is about to return or raise, and the session
    then.  A failed request raises on entering.  On a response of aiohttp
    the call [resp.status()] raises [TypeError], since the status is an
    [int]; on a response whose [status] can be called and awaited the
    membership test is made.  The wait for that status changes nothing of
    the session and is not a step of its own. *)
Definition testPath (c : config) (path : str) (r : response) (s : t) : res (bool * t) :=
  let url := host c ++ path in
  match r with
  | Failed => Raise ClientError
  | Status v =>
      match client c with
      | Aiohttp => Raise TypeError
      | StandIn =>
          if py_in v (validStatus c)
          then Ok (true, {| workPools := workPools s; poolFiles := poolFiles s;
                            seen := seen s; found := found s ++ [url];
                            requests := requests s; echoed := echoed s |})
          else Ok (false, s)
      end
  end.

(** The body of the [for] loop once [testPath] has returned [True]. *)
Definition valid_path (c : config) (path : str) (s : t) : t :=
  let jobs := if recursive c then workPools s ++ [path] else workPools s in
  let files := if recursive c then poolFiles s ++ [candidates c] else poolFiles s in
  let seen' := if recursive c then {[ path ]} ∪ seen s else seen s in
  {| workPools := jobs; poolFiles := files; seen := seen';
     found := found s; requests := requests s; echoed := echoed s ++ [path] |}.

(** From the answer to a request to the exit of the [async with], where the
    task waits again.  An error on entering has no exit to wait in: it ends
    the task at once, since [task] catches [StopIteration] only. *)
Definition test_turn (c : config) (path fileExt : str) (rest : list str)
    (r : response) (s : t) : t * worker :=
  match testPath c (path ++ fileExt) r s with
  | Raise e =>
      (s, match r with
          | Failed => Raised e
          | Status _ => Leaving path fileExt rest (Raise e)
          end)
  | Ok (valid, s1) => (s1, Leaving path fileExt rest (Ok valid))
  end.

(** From the exit of the [async with] to the next suspension point: an
    exception of the body ends the task; a returned value goes through the
    rest of the body of the [for] loop. *)
Definition leave_turn (c : config) (path : str) (rest : list str) (out : res bool)
    (s : t) : t * worker :=
  match out with
  | Raise e => (s, Raised e)
  | Ok valid =>
      let s2 := if valid then valid_path c path s else s in
      ({| workPools := workPools s2; poolFiles := poolFiles s2;
          seen := seen s2; found := found s2;
          requests := requests s2 + 1; echoed := echoed s2 |},
       next_ext path rest)
  end.

(** One step of task [id]; [r] is the answer to its pending request when it
    has one.  A task that has returned or raised takes no step.

    The event loop switches between tasks only where a task waits: for the
    answer to its request, and in the exit of the [async with].  Here a turn
    of the loop that sends no request is a step of its own, after which any
    task may move, the same one included: every run of the event loop is a
    run of this model.  With one task the two coincide.  The [timekeeper]
    task only reads [requests] and is left out. *)
Definition task_step (c : config) (id : nat) (r : response) (st : state) : option state :=
  match workers st !! id with
  | Some AtLoop =>
      let '(s, w) := loop_turn c id (session st) in
      Some {| session := s; workers := <[id := w]> (workers st) |}
  | Some (InTestPath path fileExt rest) =>
      let '(s, w) := test_turn c path fileExt rest r (session st) in
      Some {| session := s; workers := <[id := w]> (workers st) |}
  | Some (Leaving path fileExt rest out) =>
      let '(s, w) := leave_turn c path rest out (session st) in
      Some {| session := s; workers := <[id := w]> (workers st) |}
  | _ => None
  end.

Definition step (c : config) (st st' : state) : Prop :=
  ∃ id r, task_step c id r st = Some st'.

(** A schedule: which task moves and what its request is answered. *)
Fixpoint run (c : config) (sched : list (nat * response)) (st : state) : option state :=
  match sched with
  | [] => Some st
  | (id, r) :: sched' =>
      match task_step c id r st with
      | Some st' => run c sched' st'
      | None => None
      end
  end.

(** [asyncio.gather] hands the first exception of a task to [start], and
    from there to the caller of [hbuster]. *)
Definition crashed (st : state) : Prop := ∃ e, Raised e ∈ workers st.

(** No task can move any more. *)
Definition final (c : config) (st : state) : Prop := ∀ st', ¬ step c st st'.

End Session.

(** ** [hbuster], up to the session it starts *)

(** The session [hbuster] builds from its arguments.  [lines] stands for the
    content of the file [dirlist] names.  The options [tasks], [min] and
    [max] are read through [click.IntRange(min=1)]: the generator is never
    asked for a negative length, and its source ends as a list does. *)
Definition hbuster (tasks : nat) (dirlist : option str) (lines : list str)
    (chars : Charset.t) (min max : Z) (recursive : bool)
    (extensions : option str) (status host : str) : res Session.config :=
  match hbuster_check dirlist min max with
  | Raise e => Raise e
  | Ok _ =>
      let extensions := hbuster_extensions extensions in
      match hbuster_host host with
      | Raise e => Raise e
      | Ok host =>
          let listBased := match dirlist with Some _ => true | None => false end in
          let charGenerator :=
            {| CharsetGenerator.chars := chars; CharsetGenerator.mi := min;
               CharsetGenerator.ma := max |} in
          Ok {| Session.numTasks := tasks;
                Session.candidates :=
                  if listBased then lines else CharsetGenerator.yields charGenerator;
                Session.recursive := recursive;
                Session.extensions := extensions;
                Session.validStatus := Session.parse_status status;
                Session.host := host;
                Session.client := Aiohttp |}
      end
  end.


(** ** Auxiliary notions used by the statements and the proofs *)

(** What [__init__] establishes between a piece and its size. *)
Definition wf_piece (p : Charset.piece) (n : Z) : Prop :=
  match p with
  | Charset.Lit block => n = 1 ∧ block ≠ []
  | Charset.Range char1 char2 => n = ord char2 - ord char1 ∧ 0 < n
  end.

Definition wf_charset (cs : Charset.t) : Prop :=
  Forall2 wf_piece (Charset.pieces cs) (Charset.sizes cs).

(** The default of the [--chars] option, split into its pieces. *)
Definition default_specs : list str :=
  [py "a-z"; py "A-Z"; py "0-9"; py "%20"; py "-"; py "_"].

Definition charset_of (specs : list str) : Charset.t :=
  match Charset.init specs with
  | Ok cs => cs
  | Raise _ => {| Charset.pieces := []; Charset.sizes := [] |}
  end.

(** [sum(n ** l for l in range(m, M + 1))] *)
Definition sum_pow (n m M : Z) : Z :=
  sum (map (fun l => n ^ l) (CharsetGenerator.range m (M + 1))).

(** What the generator yields for the lengths [ls] when none is negative. *)
Definition strings_of (pool : list str) (ls : list Z) : list str :=
  l ← ls; join <$> CharsetGenerator.tuples pool (Z.to_nat l).

(** A symbol alphabet whose symbols are single characters. *)
Definition single_chars (pool : list str) : Prop :=
  Forall (fun x => length x = 1%nat) pool.

(** A string that holds neither the separator nor the escape character. *)
Definition clean (ty : CharsetType.t) (s : str) : Prop :=
  Forall (fun c => c ≠ CharsetType.split ty ∧ c ≠ CharsetType.escape ty) s.

(** A schedule entry for a task that stands at the head of its loop or in
    the exit of its [async with]: it has no pending request, and the answer
    is not looked at. *)
Definition turn (id : nat) : nat * response := (id, Status (PyInt 0)).

(** A schedule entry that answers the pending request of task [id]. *)
Definition answer (id : nat) (r : response) : nat * response := (id, r).

(** The session [hbuster] builds for a word list, on the host [http://host]
    with the default [--status]. *)
Definition wordlist_config (tasks : nat) (words : list str) (recursive : bool)
    (extensions : option str) : Session.config :=
  {| Session.numTasks := tasks;
     Session.candidates := words;
     Session.recursive := recursive;
     Session.extensions := hbuster_extensions extensions;
     Session.validStatus := Session.parse_status (py "200");
     Session.host := py "http://host";
     Session.client := Aiohttp |}.

(** The same session run against a client whose [status] can be awaited. *)
Definition stand_in (c : Session.config) : Session.config :=
  {| Session.numTasks := Session.numTasks c;
     Session.candidates := Session.candidates c;
     Session.recursive := Session.recursive c;
     Session.extensions := Session.extensions c;
     Session.validStatus := Session.validStatus c;
     Session.host := Session.host c;
     Session.client := StandIn |}.

(** The session fields after a schedule, from the start of the run. *)
Definition after (c : Session.config) (sched : list (nat * response)) : option Session.state :=
  Session.run c sched (Session.start c).

(** Every request of the schedule is answered with a status. *)
Definition answered (sched : list (nat * response)) : Prop :=
  Forall (fun e => snd e ≠ Failed) sched.

(** Steps a task still owes before it is back at the head of its loop. *)
Definition weight (w : Session.worker) : nat :=
  match w with
  | Session.AtLoop => 1
  | Session.InTestPath _ _ rest => 3 + 2 * length rest
  | Session.Leaving _ _ rest _ => 2 + 2 * length rest
  | Session.Returned => 0
  | Session.Raised _ => 0
  end.

(** Candidates not yet drawn from the sources of the live jobs. *)
Definition pending (s : Session.t) : nat :=
  sum_list_with length (Session.poolFiles s).

(** A bound on the steps a run without recursion can still take. *)
Definition measure (c : Session.config) (st : Session.state) : nat :=
  (S (2 * length (Session.extensions c)) * pending (Session.session st)
   + length (Session.workPools (Session.session st))
   + sum_list_with weight (Session.workers st))%nat.

(** A task that can still move. *)
Definition active (w : Session.worker) : bool :=
  match w with
  | Session.AtLoop => true
  | Session.InTestPath _ _ _ => true
  | Session.Leaving _ _ _ _ => true
  | _ => false
  end.

(** Jobs and sources stay aligned, and every live job has been marked. *)
Definition aligned (s : Session.t) : Prop :=
  length (Session.workPools s) = length (Session.poolFiles s)
  ∧ ∀ p, p ∈ Session.workPools s → p ∈ Session.seen s.

(** What holds along every run without recursion: a task has left its loop
    only once the job list was empty, and the list stays empty. *)
Definition settled (c : Session.config) (st : Session.state) : Prop :=
  aligned (Session.session st)
  ∧ length (Session.workers st) = Session.numTasks c
  ∧ (Session.Returned ∈ Session.workers st → Session.workPools (Session.session st) = []).

(** A task that is not about to raise, nor has raised. *)
Definition sound (w : Session.worker) : Prop :=
  match w with
  | Session.Leaving _ _ _ (Raise _) => False
  | Session.Raised _ => False
  | _ => True
  end.

(** Requests a task has still to count for the candidate it is testing. *)
Definition owed (w : Session.worker) : nat :=
  match w with
  | Session.InTestPath _ _ rest => S (length rest)
  | Session.Leaving _ _ rest _ => S (length rest)
  | _ => 0
  end.

(** Requests not yet counted: those of the candidates still in the sources
    and those the tasks owe. *)
Definition outstanding (c : Session.config) (st : Session.state) : nat :=
  (length (Session.extensions c) * pending (Session.session st)
   + sum_list_with owed (Session.workers st))%nat.

(** What holds along a run without recursion: no prefix is added to [seen],
    and the requests counted and outstanding do not exceed one per candidate
    and extension; they are exactly as many as long as no task has raised. *)
Definition accounted (c : Session.config) (st : Session.state) : Prop :=
  Session.seen (Session.session st) = {[ [] ]}
  ∧ Forall (fun p => p = []) (Session.workPools (Session.session st))
  ∧ Z.of_nat (outstanding c st) + Session.requests (Session.session st)
    ≤ Z.of_nat (length (Session.extensions c) * length (Session.candidates c))
  ∧ ((∀ e, Session.Raised e ∉ Session.workers st) →
     Z.of_nat (outstanding c st) + Session.requests (Session.session st)
     = Z.of_nat (length (Session.extensions c) * length (Session.candidates c))).

(** A task that is leaving its [async with] with an exception, or is not
    leaving it. *)
Definition raising (w : Session.worker) : Prop :=
  match w with
  | Session.Leaving _ _ _ (Ok _) => False
  | _ => True
  end.

(** What holds along every run against aiohttp: nothing is recorded, no job
    is created, and no test returns. *)
Definition barren (st : Session.state) : Prop :=
  Session.seen (Session.session st) = {[ [] ]}
  ∧ Forall (fun p => p = []) (Session.workPools (Session.session st))
  ∧ (length (Session.workPools (Session.session st)) ≤ 1)%nat
  ∧ Session.found (Session.session st) = []
  ∧ Session.echoed (Session.session st) = []
  ∧ Session.requests (Session.session st) = 0
  ∧ Forall raising (Session.workers st).

(** A task that neither has raised [IndexError] nor is about to. *)
Definition in_range (w : Session.worker) : Prop :=
  match w with
  | Session.Leaving _ _ _ (Raise IndexError) => False
  | Session.Raised IndexError => False
  | _ => True
  end.

(** Steps a task still owes when no test returns. *)
Definition weight_raising (w : Session.worker) : nat :=
  match w with
  | Session.AtLoop => 1
  | Session.InTestPath _ _ _ => 2
  | Session.Leaving _ _ _ _ => 1
  | Session.Returned => 0
  | Session.Raised _ => 0
  end.

(** A bound on the steps a run can still take when no test returns. *)
Definition measure_raising (c : Session.config) (st : Session.state) : nat :=
  (S (length (Session.extensions c)) * pending (Session.session st)
   + length (Session.workPools (Session.session st))
   + sum_list_with weight_raising (Session.workers st))%nat.

(** An answer that [testPath] takes as valid. *)
Definition valid_answer (c : Session.config) (r : response) : bool :=
  match r, Session.client c with
  | Status v, StandIn => py_in v (Session.validStatus c)
  | _, _ => false
  end.

(** The state a schedule leads to; the start when the schedule cannot be run. *)
Definition state_after (c : Session.config) (sched : list (nat * response)) : Session.state :=
  match after c sched with
  | Some st => st
  | None => Session.start c
  end.

(** ** Discoveries and what is echoed *)

(** [url] is the host, [path] and one of the extensions. *)
Definition recorded (c : Session.config) (d : str * str) : Prop :=
  ∃ fileExt, fileExt ∈ Session.extensions c
             ∧ d.1 = Session.host c ++ (d.2 ++ fileExt).

(** The URL a task has appended to [found] and whose path it has not echoed
    yet: it is leaving the [async with] of the test that returns [True]. *)
Definition leaving_url (c : Session.config) (w : Session.worker) : list str :=
  match w with
  | Session.Leaving path fileExt _ (Ok true) => [Session.host c ++ (path ++ fileExt)]
  | _ => []
  end.

(** The extension a task is testing and those it has still to try are the
    end of the list of extensions. *)
Definition on_extensions (c : Session.config) (w : Session.worker) : Prop :=
  match w with
  | Session.InTestPath _ fileExt rest => ∃ pre, Session.extensions c = pre ++ fileExt :: rest
  | Session.Leaving _ fileExt rest _ => ∃ pre, Session.extensions c = pre ++ fileExt :: rest
  | _ => True
  end.

(** The found URLs, apart from those of the tasks still leaving their test,
    pair off with the echoed paths. *)
Definition paired (c : Session.config) (st : Session.state) : Prop :=
  ∃ pairs : list (str * str),
    Forall (recorded c) pairs
    ∧ Session.found (Session.session st)
      ≡ₚ pairs.*1 ++ (w ← Session.workers st; leaving_url c w)
    ∧ Session.echoed (Session.session st) ≡ₚ pairs.*2.

(** ** Runs against a path tester that answers by the URL *)

(** The answer task [id] gets: that of the tester for the URL it has
    requested. *)
Definition answer_of (c : Session.config) (tester : str → response)
    (st : Session.state) (id : nat) : response :=
  match Session.workers st !! id with
  | Some (Session.InTestPath path fileExt _) =>
      tester (Session.host c ++ (path ++ fileExt))
  | _ => Status (PyInt 0)
  end.

(** A run given by the order in which the tasks move. *)
Fixpoint run_tasks (c : Session.config) (tester : str → response) (ids : list nat)
    (st : Session.state) : option Session.state :=
  match ids with
  | [] => Some st
  | id :: ids' =>
      match Session.task_step c id (answer_of c tester st id) st with
      | Some st' => run_tasks c tester ids' st'
      | None => None
      end
  end.

(** The URLs that test valid among [path] with each of [exts]. *)
Definition finds (c : Session.config) (tester : str → response) (path : str)
    (exts : list str) : list str :=
  fileExt ← exts;
  if valid_answer c (tester (Session.host c ++ (path ++ fileExt)))
  then [Session.host c ++ (path ++ fileExt)] else [].

(** The URLs that test valid for one candidate of the root job. *)
Definition finds_of_line (c : Session.config) (tester : str → response)
    (line : str) : list str :=
  finds c tester ([] ++ py "/" ++ strip line) (Session.extensions c).

(** The URLs that test valid over the whole candidate list. *)
Definition valid_urls (c : Session.config) (tester : str → response) : list str :=
  line ← Session.candidates c; finds_of_line c tester line.

(** The valid URLs a task has still to find for the candidate it is testing. *)
Definition in_flight (c : Session.config) (tester : str → response)
    (w : Session.worker) : list str :=
  match w with
  | Session.InTestPath path fileExt rest => finds c tester path (fileExt :: rest)
  | Session.Leaving path _ rest (Ok _) => finds c tester path rest
  | _ => []
  end.

(** What is found together with what is still to be found. *)
Definition found_and_to_come (c : Session.config) (tester : str → response)
    (st : Session.state) : list str :=
  Session.found (Session.session st)
  ++ (w ← Session.workers st; in_flight c tester w)
  ++ (file ← Session.poolFiles (Session.session st);
      line ← file; finds_of_line c tester line).

(** A tester for which [http://host/admin] alone is valid. *)
Definition admin_tester (url : str) : response :=
  if bool_decide (url = py "http://host/admin")
  then Status (PyStr (py "200")) else Status (PyInt 404).

(** The state an order of the tasks leads to; the start when it cannot be run. *)
Definition state_of_tasks (c : Session.config) (tester : str → response)
    (ids : list nat) : Session.state :=
  match run_tasks c tester ids (Session.start c) with
  | Some st => st
  | None => Session.start c
  end.


(** * Charset: indexed access against iteration *)

Section CharsetFacts.
Import Charset.

Lemma match_G3_nonempty s block :
  PIECE_PATTERN_match s = Some (G3 block) → block ≠ [].
Proof.
  unfold PIECE_PATTERN_match. intros H.
  repeat (case_match; simplify_eq); done.
Qed.

Lemma init_piece_wf s p n : init_piece s = Ok (p, n) → wf_piece p n.
Proof.
  unfold init_piece. intros H.
  destruct (PIECE_PATTERN_match s) as [[c1 c2|block]|] eqn:Hm; simplify_eq.
  - destruct (Z.eqb_spec c1 c2); simplify_eq; [done|].
    unfold ord in H. destruct (Z.gtb_spec c1 c2); simplify_eq; simpl; unfold ord; lia.
  - split; [done|]. by eapply match_G3_nonempty.
Qed.

Lemma init_loop_wf specs acc cs :
  wf_charset acc → init_loop specs acc = Ok cs → wf_charset cs.
Proof.
  revert acc. induction specs as [|s specs IH]; intros acc Hacc H; simpl in H.
  - by simplify_eq.
  - destruct (init_piece s) as [[p n]|] eqn:Hp; [|done].
    eapply IH; [|exact H].
    unfold wf_charset; simpl. apply Forall2_app; [done|].
    constructor; [by eapply init_piece_wf | constructor].
Qed.

Lemma init_wf specs cs : init specs = Ok cs → wf_charset cs.
Proof. apply init_loop_wf. constructor. Qed.

Lemma length_iter_piece p n :
  wf_piece p n → Z.of_nat (length (iter_piece p)) = n.
Proof.
  destruct p as [block|c1 c2]; simpl; intros [-> ?]; [done|].
  rewrite length_map, length_seqZ. lia.
Qed.

Lemma length_iter_pieces ps ns :
  Forall2 wf_piece ps ns →
  Z.of_nat (length (concat (map iter_piece ps))) = sum ns.
Proof.
  induction 1 as [|p n ps ns Hp _ IH]; simpl; [done|].
  rewrite length_app, Nat2Z.inj_add, IH, (length_iter_piece p n Hp). done.
Qed.

Lemma length_iter cs : wf_charset cs → Z.of_nat (length (iter cs)) = len cs.
Proof. apply length_iter_pieces. Qed.

Lemma sizes_positive ps ns : Forall2 wf_piece ps ns → Forall (fun n => 0 < n) ns.
Proof.
  induction 1 as [|p n ps ns Hp _ IH]; constructor; [|done].
  destruct p; simpl in Hp; lia.
Qed.

Lemma sum_nonneg ns : Forall (fun n => 0 < n) ns → 0 ≤ sum ns.
Proof. induction 1; simpl; lia. Qed.

(** Every symbol a range yields lies between its two ends, so [chr] is
    only applied inside the code points of the input. *)
Lemma iter_piece_bounds char1 char2 x :
  x ∈ iter_piece (Range char1 char2) →
  ∃ i, x = chr i ∧ ord char1 ≤ i < ord char2.
Proof.
  simpl. intros (i & -> & Hi)%list_elem_of_fmap.
  exists i. split; [done|]. apply elem_of_seqZ in Hi. lia.
Qed.

Lemma getitem_loop_lt ps ns index :
  Forall2 wf_piece ps ns → 0 ≤ index < sum ns →
  ∃ x, concat (map iter_piece ps) !! Z.to_nat index = Some x
       ∧ getitem_loop (zip ps ns) index = Ok (Some x).
Proof.
  intros Hwf. revert index.
  induction Hwf as [|p n ps ns Hp Hwf IH]; intros index Hi; simpl in *; [lia|].
  pose proof (length_iter_piece p n Hp) as Hlen.
  destruct (Z.geb_spec index n) as [Hge|Hlt].
  - destruct (IH (index - n)) as (x & Hx & Hg); [lia|].
    exists x. split; [|done].
    rewrite lookup_app_r by lia.
    replace (Z.to_nat index - length (iter_piece p))%nat with (Z.to_nat (index - n)) by lia.
    done.
  - destruct p as [block|c1 c2]; simpl in Hp; destruct Hp as [-> Hp].
    + assert (index = 0) as -> by lia. simpl. by exists block.
    + destruct (Z.eqb_spec (ord c2 - ord c1) 1) as [H1|H1].
      * assert (index = 0) as -> by lia. exists (chr c1). split; [|done].
        simpl. rewrite H1. done.
      * exists (chr (ord c1 + index)). split; [|done].
        rewrite lookup_app_l by (simpl in *; lia).
        simpl. rewrite list_lookup_fmap, lookup_seqZ_lt by lia.
        simpl. do 2 f_equal. lia.
Qed.

Lemma getitem_loop_ge ps ns index :
  Forall2 wf_piece ps ns → sum ns ≤ index →
  getitem_loop (zip ps ns) index = Ok None.
Proof.
  intros Hwf. revert index.
  induction Hwf as [|p n ps ns Hp Hwf IH]; intros index Hi; simpl in *; [done|].
  pose proof (sum_nonneg _ (sizes_positive _ _ Hwf)).
  destruct (Z.geb_spec index n); [|lia]. apply IH. lia.
Qed.

End CharsetFacts.

(** The default of [--chars] splits into [default_specs]. *)
Lemma default_chars_split :
  CharsetType.splitByExcaped CharsetType.chars_option (py "a-z,A-Z,0-9,%20,-,_")
  = Ok default_specs.
Proof. reflexivity. Qed.

(** X12.  A charset that [convert] returns was built by the constructor
    from the pieces of the text and has at least one symbol. *)
Lemma convert_init ty value cs :
  CharsetType.convert ty value = Ok cs →
  ∃ specs, Charset.init specs = Ok cs ∧ 0 < Charset.len cs.
Proof.
  unfold CharsetType.convert. intros H.
  destruct (CharsetType.splitByExcaped ty value) as [specs|]; [|done].
  destruct (Charset.init specs) as [cs'|] eqn:Hcs; [|done].
  destruct (Z.eqb_spec (Charset.len cs') 0) as [|Hne]; simplify_eq.
  exists specs. split; [done|]. apply init_wf in Hcs.
  pose proof (sum_nonneg _ (sizes_positive _ _ Hcs)). unfold Charset.len in *. lia.
Qed.

(** C8.  For a charset built by the constructor and an index in
    [0, len), [__getitem__] returns the symbol that [__iter__] yields at
    that position. *)
Theorem getitem_agrees_with_iter specs cs index :
  Charset.init specs = Ok cs →
  0 ≤ index < Charset.len cs →
  ∃ x, Charset.iter cs !! Z.to_nat index = Some x
       ∧ Charset.getitem cs index = Ok (Some x).
Proof.
  intros Hcs Hi. unfold Charset.getitem, Charset.remap.
  destruct (Z.ltb_spec index 0); [lia|].
  apply getitem_loop_lt; [by apply init_wf in Hcs | done].
Qed.

Lemma getitem_agrees_with_iter_witness :
  ∃ x, Charset.iter (charset_of default_specs) !! Z.to_nat 30 = Some x
       ∧ Charset.getitem (charset_of default_specs) 30 = Ok (Some x).
Proof.
  apply (getitem_agrees_with_iter default_specs (charset_of default_specs) 30).
  - vm_compute. reflexivity.
  - vm_compute. split; [discriminate | reflexivity].
Defined.

(** C9, as the code has it.  For a charset built by the constructor and an
    index at or past its length, [__getitem__] falls out of its loop and
    returns [None]; it raises nothing. *)
Theorem getitem_past_end_is_None specs cs index :
  Charset.init specs = Ok cs →
  Charset.len cs ≤ index →
  Charset.getitem cs index = Ok None.
Proof.
  intros Hcs%init_wf Hi. unfold Charset.getitem, Charset.remap.
  pose proof (sum_nonneg _ (sizes_positive _ _ Hcs)). unfold Charset.len in *.
  destruct (Z.ltb_spec index 0); [lia|].
  by apply getitem_loop_ge.
Qed.

Lemma getitem_past_end_is_None_witness :
  Charset.getitem (charset_of [py "a-c"]) 2 = Ok None.
Proof.
  apply (getitem_past_end_is_None [py "a-c"] (charset_of [py "a-c"]) 2).
  - vm_compute. reflexivity.
  - vm_compute. discriminate.
Defined.

(** C9, as the specification has it, fails: the charset of [a-c] has length
    2, and index 2 is answered with [None], not with an error. *)
Lemma getitem_past_end_no_error :
  Charset.init [py "a-c"] = Ok (charset_of [py "a-c"])
  ∧ Charset.len (charset_of [py "a-c"]) ≤ 2
  ∧ Charset.getitem (charset_of [py "a-c"]) 2 = Ok None
  ∧ ¬ (∃ e, Charset.getitem (charset_of [py "a-c"]) 2 = Raise e).
Proof.
  split; [by vm_compute|]. split; [by vm_compute|]. split; [by vm_compute|].
  intros [e He]. vm_compute in He. discriminate.
Qed.

(** C10.  For a charset built by the constructor and a negative index, the
    index is replaced by [len - index], which is at least [len + 1], and
    [__getitem__] returns [None]. *)
Theorem getitem_negative_is_None specs cs index :
  Charset.init specs = Ok cs →
  index < 0 →
  Charset.remap cs index = Charset.len cs - index
  ∧ Charset.len cs + 1 ≤ Charset.remap cs index
  ∧ Charset.getitem cs index = Ok None.
Proof.
  intros Hcs%init_wf Hi. unfold Charset.getitem, Charset.remap.
  destruct (Z.ltb_spec index 0); [|lia].
  split; [done|]. split; [lia|].
  apply getitem_loop_ge; [done|]. unfold Charset.len. lia.
Qed.

Lemma getitem_negative_is_None_witness :
  Charset.remap (charset_of default_specs) (-1) = Charset.len (charset_of default_specs) - (-1)
  ∧ Charset.len (charset_of default_specs) + 1 ≤ Charset.remap (charset_of default_specs) (-1)
  ∧ Charset.getitem (charset_of default_specs) (-1) = Ok None.
Proof.
  apply (getitem_negative_is_None default_specs (charset_of default_specs) (-1)).
  - vm_compute. reflexivity.
  - vm_compute. reflexivity.
Defined.

(** * CharsetGenerator: how many strings, which, and when without repeats *)

Section GeneratorFacts.
Import CharsetGenerator.
Variable pool : list str.

Lemma length_tuples n : length (tuples pool n) = (length pool ^ n)%nat.
Proof.
  induction n as [|n IH]; simpl; [done|].
  rewrite <- IH. generalize (tuples pool n) as ts. clear IH.
  induction pool as [|x xs IHxs]; intros ts; csimpl; [done|].
  rewrite length_app, length_fmap, IHxs. done.
Qed.

Lemma elem_of_tuples n p :
  p ∈ tuples pool n → length p = n ∧ Forall (fun x => x ∈ pool) p.
Proof.
  revert p. induction n as [|n IH]; simpl; intros p Hp.
  - apply list_elem_of_singleton in Hp as ->. by split.
  - apply list_elem_of_bind in Hp as (x & Hp & Hx).
    apply list_elem_of_fmap in Hp as (q & -> & Hq).
    destruct (IH _ Hq) as [<- HF]. split; [done|]. by constructor.
Qed.

Lemma NoDup_tuples n : NoDup pool → NoDup (tuples pool n).
Proof.
  intros Hpool. induction n as [|n IH]; simpl.
  - apply NoDup_singleton.
  - apply NoDup_bind; [| |done].
    + intros x1 x2 p _ _ (q1 & -> & _)%list_elem_of_fmap (q2 & ? & _)%list_elem_of_fmap.
      congruence.
    + intros x _. apply NoDup_fmap_2; [|done]. intros q1 q2. congruence.
Qed.

Lemma length_join_single p :
  single_chars p → length (join p) = length p.
Proof.
  unfold join, single_chars. induction 1 as [|x p Hx _ IH]; simpl; [done|].
  rewrite length_app. lia.
Qed.

Lemma length_join_nonempty p :
  Forall (fun x => x ≠ []) p → (length p ≤ length (join p))%nat.
Proof.
  unfold join. induction 1 as [|x p Hx _ IH]; simpl; [done|]. rewrite length_app.
  destruct x; [done|]. simpl. lia.
Qed.

Lemma join_inj_single p q :
  single_chars p → single_chars q → join p = join q → p = q.
Proof.
  unfold join, single_chars. intros Hp. revert q.
  induction Hp as [|x p Hx _ IH]; intros q Hq Heq.
  - destruct Hq as [|y q Hy Hq]; [done|]. destruct y; simplify_eq/=.
  - destruct Hq as [|y q Hy Hq]; [destruct x; simplify_eq/=|].
    destruct x as [|a [|??]], y as [|b [|??]]; simplify_eq/=.
    f_equal. by apply IH.
Qed.

Lemma iter_loop_nonneg ls :
  Forall (fun l => 0 ≤ l) ls → iter_loop pool ls = (strings_of pool ls, None).
Proof.
  induction 1 as [|l ls Hl _ IH]; simpl; [done|].
  unfold product. destruct (Z.ltb_spec l 0); [lia|]. by rewrite IH.
Qed.

Lemma length_strings_of ls :
  Forall (fun l => 0 ≤ l) ls →
  Z.of_nat (length (strings_of pool ls))
  = sum (map (fun l => Z.of_nat (length pool) ^ l) ls).
Proof.
  unfold strings_of. induction 1 as [|l ls Hl _ IH]; csimpl; [done|].
  rewrite length_app, length_fmap, length_tuples, Nat2Z.inj_add, IH.
  rewrite Nat2Z.inj_pow, Z2Nat.id by done. done.
Qed.

Lemma elem_of_strings_of ls y :
  y ∈ strings_of pool ls →
  ∃ l p, l ∈ ls ∧ p ∈ tuples pool (Z.to_nat l) ∧ y = join p.
Proof.
  unfold strings_of. intros (l & Hy & Hl)%list_elem_of_bind.
  apply list_elem_of_fmap in Hy as (p & -> & Hp). by exists l, p.
Qed.

Lemma tuples_single n p :
  single_chars pool → p ∈ tuples pool n → single_chars p.
Proof.
  intros Hpool [_ Hp]%elem_of_tuples. unfold single_chars in *.
  rewrite Forall_forall in *. auto.
Qed.

Lemma NoDup_strings_of ls :
  Forall (fun l => 0 ≤ l) ls → NoDup ls →
  single_chars pool → NoDup pool →
  NoDup (strings_of pool ls).
Proof.
  intros Hls Hnd Hone Hpool. unfold strings_of. apply NoDup_bind; [| |done].
  - intros l1 l2 y Hl1 Hl2 (p1 & -> & Hp1)%list_elem_of_fmap (p2 & Heq & Hp2)%list_elem_of_fmap.
    apply (f_equal length) in Heq.
    rewrite !length_join_single in Heq by (by eapply tuples_single).
    apply elem_of_tuples in Hp1 as [Hp1 _], Hp2 as [Hp2 _].
    rewrite Forall_forall in Hls. apply Hls in Hl1, Hl2. lia.
  - intros l _. apply NoDup_fmap_2_strong; [|by apply NoDup_tuples].
    intros p q Hp Hq. apply join_inj_single; by eapply tuples_single.
Qed.

End GeneratorFacts.

Lemma iter_symbols_nonempty cs :
  wf_charset cs → Forall (fun x => x ≠ []) (Charset.iter cs).
Proof.
  unfold wf_charset, Charset.iter.
  induction 1 as [|p n ps ns Hp _ IH]; simpl; [constructor|].
  apply Forall_app. split; [|done].
  destruct p as [block|c1 c2]; simpl in *.
  - constructor; [tauto | constructor].
  - apply Forall_fmap, Forall_forall. done.
Qed.

(** C7, as the code has it.  For a charset built by the constructor and
    [0 <= m <= M], the generator runs to its end and yields exactly
    [sum(len ** l for l in range(m, M + 1))] strings.  Each is the
    concatenation of [l] symbols of the charset for some [m <= l <= M], so it
    has at least [m] characters.  When every symbol is a single character it
    has between [m] and [M] characters, and when the symbols are moreover
    pairwise distinct no string is yielded twice. *)
Theorem generator_yields specs cs m M :
  Charset.init specs = Ok cs →
  0 ≤ m ≤ M →
  let g := {| CharsetGenerator.chars := cs; CharsetGenerator.mi := m;
              CharsetGenerator.ma := M |} in
  snd (CharsetGenerator.iter g) = None
  ∧ Z.of_nat (length (CharsetGenerator.yields g)) = sum_pow (Charset.len cs) m M
  ∧ (∀ y, y ∈ CharsetGenerator.yields g →
       ∃ l p, m ≤ l ≤ M ∧ Z.of_nat (length p) = l
              ∧ Forall (fun x => x ∈ Charset.iter cs) p
              ∧ y = join p ∧ m ≤ Z.of_nat (length y))
  ∧ (single_chars (Charset.iter cs) →
       ∀ y, y ∈ CharsetGenerator.yields g → m ≤ Z.of_nat (length y) ≤ M)
  ∧ (single_chars (Charset.iter cs) → NoDup (Charset.iter cs) →
       NoDup (CharsetGenerator.yields g)).
Proof.
  intros Hcs%init_wf Hm g.
  assert (Forall (fun l => 0 ≤ l) (CharsetGenerator.range m (M + 1))) as Hls.
  { apply Forall_seqZ. lia. }
  assert (∀ l, l ∈ CharsetGenerator.range m (M + 1) → m ≤ l ≤ M) as Hrange.
  { intros l Hl%elem_of_seqZ. lia. }
  unfold CharsetGenerator.yields, CharsetGenerator.iter. simpl.
  rewrite (iter_loop_nonneg _ _ Hls). simpl.
  assert (∀ y, y ∈ strings_of (Charset.iter cs) (CharsetGenerator.range m (M + 1)) →
     ∃ l p, m ≤ l ≤ M ∧ Z.of_nat (length p) = l
            ∧ Forall (fun x => x ∈ Charset.iter cs) p ∧ y = join p) as Hshape.
  { intros y (l & p & Hl & Hp & ->)%elem_of_strings_of.
    apply Hrange in Hl. apply elem_of_tuples in Hp as [Hlen Hp].
    exists l, p. split_and!; [lia..|done|done]. }
  split_and!.
  - done.
  - rewrite length_strings_of by done. unfold sum_pow.
    by rewrite (length_iter _ Hcs).
  - intros y (l & p & Hl & Hlen & Hp & ->)%Hshape.
    exists l, p. split_and!; [lia..|done|done|].
    pose proof (iter_symbols_nonempty _ Hcs) as Hne.
    assert (Forall (fun x => x ≠ []) p) as Hp'.
    { rewrite Forall_forall in *. auto. }
    apply length_join_nonempty in Hp'. unfold str in *. lia.
  - intros Hone y (l & p & Hl & Hlen & Hp & ->)%Hshape.
    rewrite length_join_single; [lia|].
    unfold single_chars in *. rewrite Forall_forall in *. auto.
  - intros Hone Hnd. apply NoDup_strings_of; [done|apply NoDup_seqZ|done|done].
Qed.

Lemma generator_yields_witness :
  let cs := charset_of [py "a-d"] in
  let g := {| CharsetGenerator.chars := cs; CharsetGenerator.mi := 1;
              CharsetGenerator.ma := 2 |} in
  snd (CharsetGenerator.iter g) = None
  ∧ Z.of_nat (length (CharsetGenerator.yields g)) = sum_pow (Charset.len cs) 1 2
  ∧ (∀ y, y ∈ CharsetGenerator.yields g →
       ∃ l p, 1 ≤ l ≤ 2 ∧ Z.of_nat (length p) = l
              ∧ Forall (fun x => x ∈ Charset.iter cs) p
              ∧ y = join p ∧ 1 ≤ Z.of_nat (length y))
  ∧ (single_chars (Charset.iter cs) →
       ∀ y, y ∈ CharsetGenerator.yields g → 1 ≤ Z.of_nat (length y) ≤ 2)
  ∧ (single_chars (Charset.iter cs) → NoDup (Charset.iter cs) →
       NoDup (CharsetGenerator.yields g)).
Proof.
  intros cs.
  apply (generator_yields [py "a-d"] cs 1 2).
  - vm_compute. reflexivity.
  - vm_compute. split; discriminate.
Defined.

(** C7, as the specification has it, fails: over the pieces [%20], [a-c]
    and [b-d] with [m = M = 1] the generator yields [%20], which has three
    characters, and yields [b] twice. *)
Lemma generator_long_and_repeated :
  let cs := charset_of [py "%20"; py "a-c"; py "b-d"] in
  let g := {| CharsetGenerator.chars := cs; CharsetGenerator.mi := 1;
              CharsetGenerator.ma := 1 |} in
  Charset.init [py "%20"; py "a-c"; py "b-d"] = Ok cs
  ∧ CharsetGenerator.iter g = ([py "%20"; py "a"; py "b"; py "b"; py "c"], None)
  ∧ (∃ y, y ∈ CharsetGenerator.yields g ∧ ¬ (1 ≤ Z.of_nat (length y) ≤ 1))
  ∧ ¬ NoDup (CharsetGenerator.yields g).
Proof.
  intros cs g. split; [by vm_compute|]. split; [by vm_compute|]. split.
  - exists (py "%20"). split; [vm_compute; apply list_elem_of_here|].
    vm_compute. intros [_ H]. by apply H.
  - assert (CharsetGenerator.yields g = [py "%20"; py "a"; py "b"; py "b"; py "c"]) as ->
      by (by vm_compute).
    intros Hnd. apply NoDup_cons in Hnd as [_ Hnd]. apply NoDup_cons in Hnd as [_ Hnd].
    apply NoDup_cons in Hnd as [Hnd _]. apply Hnd. apply list_elem_of_here.
Qed.

(** * The start-up code *)

(** [wordlist_config] is the session [hbuster] builds for a word list, the
    host [http://host/] and the defaults of [--min], [--max] and [--status]. *)
Lemma hbuster_wordlist tasks lines chars recursive extensions :
  hbuster tasks (Some (py "words.txt")) lines chars 1 8 recursive extensions
    (py "200") (py "http://host/")
  = Ok (wordlist_config tasks lines recursive extensions).
Proof. reflexivity. Qed.

(** C4, at a failing input.  With [--extensions php] the list handed to the
    session is [['', '.']]: the option is overwritten before it is read, so
    a candidate is tried bare and with a single dot, never with [.php]. *)
Theorem configured_extensions_are_ignored :
  hbuster_extensions (Some (py "php")) = [[]; py "."]
  ∧ (py ".php" ∉ hbuster_extensions (Some (py "php")))
  ∧ (∀ extensions, hbuster_extensions extensions = hbuster_extensions None).
Proof.
  split; [reflexivity|]. split; [|reflexivity].
  unfold hbuster_extensions. simpl. rewrite !elem_of_cons, elem_of_nil.
  intros [H|[H|[]]]; vm_compute in H; discriminate H.
Qed.

(** C5, at two failing inputs.  With no word list and [min = 3 > max = 2]
    the check passes; with a word list and the same lengths it raises. *)
Theorem range_check_is_inverted :
  hbuster_check None 3 2 = Ok tt
  ∧ hbuster_check (Some (py "words.txt")) 3 2 = Raise BadParameter.
Proof. split; reflexivity. Qed.

(** * Charset: what the constructor accepts and builds *)

Section CharsetConstructor.
Import Charset.

Lemma dot_newline c : dot c = true ↔ c ≠ newline.
Proof. unfold dot. destruct (Z.eqb_spec c newline); naive_solver. Qed.

Lemma plain_dots s : newline ∉ s → Forall (fun c => dot c = true) s.
Proof.
  intros H. apply Forall_forall. intros c Hc. apply dot_newline. by intros ->.
Qed.

Lemma dots_spec s r k :
  dots s = (r, k) →
  s = r ++ k ∧ Forall (fun c => dot c = true) r
  ∧ (k = [] ∨ ∃ c k', k = c :: k' ∧ dot c = false).
Proof.
  revert r k. induction s as [|c s IH]; intros r k H; simpl in H.
  - simplify_eq. split_and!; [done|constructor|by left].
  - destruct (dot c) eqn:Hc.
    + destruct (dots s) as [r' k'] eqn:Hd. simplify_eq.
      destruct (IH _ _ eq_refl) as (-> & Hr & Hk).
      split_and!; [done|by constructor|done].
    + simplify_eq. split_and!; [done|constructor|]. right. eauto.
Qed.

Lemma dots_all s : Forall (fun c => dot c = true) s → dots s = (s, []).
Proof. induction 1 as [|c s Hc _ IH]; simpl; [done|]. by rewrite Hc, IH. Qed.

(** On a non-empty string without a newline the pattern always matches. *)
Lemma match_plain s :
  s ≠ [] → Forall (fun c => dot c = true) s →
  (∃ c1 c2 rest, s = c1 :: hyphen :: c2 :: rest ∧ PIECE_PATTERN_match s = Some (G12 c1 c2))
  ∨ PIECE_PATTERN_match s = Some (G3 s).
Proof.
  intros Hne Hs. pose proof (dots_all _ Hs) as Hd.
  unfold PIECE_PATTERN_match. rewrite Hd.
  destruct s as [|c1 [|h [|c2 rest]]]; [done|by right..|].
  apply Forall_cons in Hs as [H1 Hs]. apply Forall_cons in Hs as [_ Hs].
  apply Forall_cons in Hs as [H2 _]. rewrite H1, H2. simpl.
  destruct (Z.eqb_spec h hyphen) as [->|]; [left; eauto|by right].
Qed.

Lemma init_piece_plain s :
  s ≠ [] → newline ∉ s → ∃ p n, init_piece s = Ok (p, n).
Proof.
  intros Hne Hs%plain_dots. unfold init_piece.
  destruct (match_plain s Hne Hs) as [(c1 & c2 & rest & -> & ->)| ->]; [|eauto].
  destruct (c1 =? c2); [eauto|]. destruct (ord c1 >? ord c2); eauto.
Qed.

(** The constructor threads its accumulator: what it returns extends it. *)
Lemma init_loop_extends specs acc cs :
  init_loop specs acc = Ok cs →
  ∃ ps ns, pieces cs = pieces acc ++ ps ∧ sizes cs = sizes acc ++ ns
           ∧ Forall2 (fun s pn => init_piece s = Ok pn) specs (zip ps ns)
           ∧ length ps = length specs ∧ length ns = length specs.
Proof.
  revert acc. induction specs as [|s specs IH]; intros acc H; simpl in H.
  - simplify_eq. exists [], []. rewrite !app_nil_r. by split_and!.
  - destruct (init_piece s) as [[p n]|] eqn:Hp; [|done].
    destruct (IH _ H) as (ps & ns & Hps & Hns & HF & Hl1 & Hl2). simpl in *.
    exists (p :: ps), (n :: ns). rewrite <- !app_assoc in *. simpl.
    split_and!; try done; try lia. by constructor.
Qed.

Lemma init_loop_failure specs acc e :
  init_loop specs acc = Raise e →
  e = ValueError ∧ ∃ s, s ∈ specs ∧ PIECE_PATTERN_match s = None.
Proof.
  revert acc. induction specs as [|s specs IH]; intros acc H; simpl in H; [done|].
  destruct (init_piece s) as [[p n]|e'] eqn:Hp.
  - destruct (IH _ H) as (-> & s' & Hs' & Hm). split; [done|].
    exists s'. split; [by right|done].
  - simplify_eq. unfold init_piece in Hp.
    destruct (PIECE_PATTERN_match s) as [[c1 c2|block]|] eqn:Hm.
    + destruct (c1 =? c2); [done|]. destruct (ord c1 >? ord c2); done.
    + done.
    + simplify_eq. split; [done|]. exists s. split; [by left|done].
Qed.

Lemma init_loop_succeeds specs acc :
  Forall (fun s => ∃ p n, init_piece s = Ok (p, n)) specs →
  ∃ cs, init_loop specs acc = Ok cs.
Proof.
  intros H. revert acc. induction H as [|s specs (p & n & Hp) _ IH]; intros acc; simpl.
  - eauto.
  - rewrite Hp. apply IH.
Qed.

End CharsetConstructor.

(** X1.  For a charset built by the constructor, [len] is the number of
    symbols [__iter__] yields. *)
Theorem len_counts_the_symbols specs cs :
  Charset.init specs = Ok cs →
  Z.of_nat (length (Charset.iter cs)) = Charset.len cs.
Proof. intros Hcs%init_wf. by apply length_iter. Qed.

Lemma len_counts_the_symbols_witness :
  Z.of_nat (length (Charset.iter (charset_of default_specs)))
  = Charset.len (charset_of default_specs).
Proof.
  apply (len_counts_the_symbols default_specs). vm_compute. reflexivity.
Defined.

(** X2.  The constructor accepts every list of non-empty piece
    specifications that hold no newline, and builds one piece for each. *)
Theorem init_accepts_plain_pieces specs :
  Forall (fun s => s ≠ [] ∧ Charset.newline ∉ s) specs →
  ∃ cs, Charset.init specs = Ok cs
        ∧ length (Charset.pieces cs) = length specs
        ∧ length (Charset.sizes cs) = length specs.
Proof.
  intros H.
  destruct (init_loop_succeeds specs {| Charset.pieces := []; Charset.sizes := [] |})
    as [cs Hcs].
  { eapply Forall_impl; [exact H|]. intros s [? ?]. by apply init_piece_plain. }
  exists cs. split; [done|].
  destruct (init_loop_extends _ _ _ Hcs) as (ps & ns & -> & -> & _ & ? & ?). done.
Qed.

Lemma init_accepts_plain_pieces_witness :
  ∃ cs, Charset.init default_specs = Ok cs
        ∧ length (Charset.pieces cs) = length default_specs
        ∧ length (Charset.sizes cs) = length default_specs.
Proof.
  apply (init_accepts_plain_pieces default_specs).
  apply (bool_decide_unpack _). vm_compute. exact I.
Defined.

(** X3.  The constructor fails only with [ValueError], and only when one of
    the piece specifications does not match the pattern. *)
Theorem init_fails_on_unmatched_piece specs e :
  Charset.init specs = Raise e →
  e = ValueError ∧ ∃ s, s ∈ specs ∧ Charset.PIECE_PATTERN_match s = None.
Proof. apply init_loop_failure. Qed.

Lemma init_fails_on_unmatched_piece_witness :
  ValueError = ValueError
  ∧ ∃ s, s ∈ [py "a-z"; []] ∧ Charset.PIECE_PATTERN_match s = None.
Proof.
  apply (init_fails_on_unmatched_piece [py "a-z"; []] ValueError).
  vm_compute. reflexivity.
Defined.

Section CharsetPieces.
Import Charset.

Lemma match_G12_dots s c1 c2 :
  PIECE_PATTERN_match s = Some (G12 c1 c2) →
  dot c1 = true ∧ dot c2 = true ∧ ∃ rest, s = c1 :: hyphen :: c2 :: rest.
Proof.
  unfold PIECE_PATTERN_match. intros H.
  destruct s as [|a [|h [|b rest]]]; try (repeat case_match; by simplify_eq).
  destruct (dot a) eqn:Ha, (Z.eqb_spec h hyphen) as [->|], (dot b) eqn:Hb; simpl in H;
    try (repeat case_match; by simplify_eq).
  simplify_eq. eauto.
Qed.

Lemma match_range c1 c2 rest :
  dot c1 = true → dot c2 = true →
  PIECE_PATTERN_match (c1 :: hyphen :: c2 :: rest) = Some (G12 c1 c2).
Proof. intros H1 H2. unfold PIECE_PATTERN_match. by rewrite H1, H2, Z.eqb_refl. Qed.

(** What group 3 captured is a string the second alternative captures whole. *)
Lemma match_G3_stable s block :
  PIECE_PATTERN_match s = Some (G3 block) →
  PIECE_PATTERN_match block = Some (G3 block).
Proof.
  intros H.
  assert (∃ k, dots s = (block, k)) as [k Hd].
  { unfold PIECE_PATTERN_match in H. repeat case_match; simplify_eq; eauto. }
  pose proof (match_G3_nonempty _ _ H) as Hne.
  destruct (dots_spec _ _ _ Hd) as (-> & Hdots & _).
  destruct (match_plain block Hne Hdots) as [(c1 & c2 & rest & -> & Hm)|]; [|done].
  apply match_G12_dots in Hm as (H1 & H2 & _).
  rewrite <- !app_comm_cons in H.
  rewrite (match_range c1 c2 (rest ++ k) H1 H2) in H. done.
Qed.

Lemma piece_str_range c1 c2 : piece_str (Range c1 c2) = [c1; hyphen; c2].
Proof. reflexivity. Qed.

Lemma piece_str_lit block : piece_str (Lit block) = block.
Proof. reflexivity. Qed.

Lemma match_single c : dot c = true → PIECE_PATTERN_match [c] = Some (G3 [c]).
Proof. intros H. unfold PIECE_PATTERN_match. simpl. by rewrite H. Qed.

(** A piece the constructor built is read back from its text. *)
Lemma init_piece_reparse s p n :
  init_piece s = Ok (p, n) → init_piece (piece_str p) = Ok (p, n).
Proof.
  unfold init_piece. intros H.
  destruct (PIECE_PATTERN_match s) as [[c1 c2|block]|] eqn:Hm; [| |done].
  - apply match_G12_dots in Hm as (H1 & H2 & _).
    destruct (Z.eqb_spec c1 c2) as [->|Hne].
    + injection H as <- <-. rewrite piece_str_lit. unfold chr.
      by rewrite (match_single c2 H2).
    + unfold ord in *. destruct (Z.gtb_spec c1 c2); injection H as <- <-;
        rewrite piece_str_range.
      * rewrite (match_range c2 c1 [] H2 H1).
        destruct (Z.eqb_spec c2 c1); [lia|]. unfold ord.
        destruct (Z.gtb_spec c2 c1); [lia|done].
      * rewrite (match_range c1 c2 [] H1 H2).
        destruct (Z.eqb_spec c1 c2); [lia|]. unfold ord.
        destruct (Z.gtb_spec c1 c2); [lia|done].
  - injection H as <- <-. rewrite piece_str_lit. by rewrite (match_G3_stable _ _ Hm).
Qed.

Lemma init_loop_reparse specs acc cs acc' :
  init_loop specs acc = Ok cs →
  ∃ ps ns, pieces cs = pieces acc ++ ps ∧ sizes cs = sizes acc ++ ns
           ∧ init_loop (map piece_str ps) acc'
             = Ok {| pieces := pieces acc' ++ ps; sizes := sizes acc' ++ ns |}.
Proof.
  revert acc acc'. induction specs as [|s specs IH]; intros acc acc' H; simpl in H.
  - simplify_eq. exists [], []. destruct acc'. by rewrite !app_nil_r.
  - destruct (init_piece s) as [[p n]|] eqn:Hp; [|done].
    destruct (IH _ {| pieces := pieces acc' ++ [p]; sizes := sizes acc' ++ [n] |} H)
      as (ps & ns & Hps & Hns & Hre). simpl in *.
    exists (p :: ps), (n :: ns). rewrite <- !app_assoc in *. simpl.
    split_and!; [done..|]. by rewrite (init_piece_reparse _ _ _ Hp).
Qed.

Lemma init_read_back specs cs :
  init specs = Ok cs → init (map piece_str (pieces cs)) = Ok cs.
Proof.
  intros H.
  destruct (init_loop_reparse _ _ _ {| pieces := []; sizes := [] |} H)
    as (ps & ns & Hps & Hns & Hre).
  simpl in *. destruct cs as [ps' ns']. simpl in *. by subst.
Qed.

Lemma piece_str_nonempty p n : wf_piece p n → piece_str p ≠ [].
Proof. destruct p; simpl; [tauto|done]. Qed.

End CharsetPieces.

(** X4.  A range piece [X-Y] with distinct ends, in either order, stands
    for the symbols from the lower end up to, and without, the upper end:
    its length is the distance of the two code points. *)
Theorem range_excludes_its_upper_end c1 c2 rest :
  c1 ≠ Charset.newline → c2 ≠ Charset.newline → c1 ≠ c2 →
  ∃ cs, Charset.init [c1 :: Charset.hyphen :: c2 :: rest] = Ok cs
        ∧ Charset.iter cs = map chr (seqZ (Z.min c1 c2) (Z.abs (c1 - c2)))
        ∧ Charset.len cs = Z.abs (c1 - c2)
        ∧ chr (Z.max c1 c2) ∉ Charset.iter cs.
Proof.
  intros H1%dot_newline H2%dot_newline Hne.
  unfold Charset.init, Charset.init_loop, Charset.init_piece.
  rewrite (match_range c1 c2 rest H1 H2).
  destruct (Z.eqb_spec c1 c2); [done|]. unfold ord.
  destruct (Z.gtb_spec c1 c2); eexists; (split; [reflexivity|]);
    unfold Charset.iter, Charset.len; simpl; unfold ord; rewrite app_nil_r.
  - rewrite Z.min_r, Z.max_l by lia. replace (Z.abs (c1 - c2)) with (c1 - c2) by lia.
    split_and!; [done|lia|].
    intros (i & [= <-] & Hi%elem_of_seqZ)%list_elem_of_fmap. lia.
  - rewrite Z.min_l, Z.max_r by lia. replace (Z.abs (c1 - c2)) with (c2 - c1) by lia.
    split_and!; [done|lia|].
    intros (i & [= <-] & Hi%elem_of_seqZ)%list_elem_of_fmap. lia.
Qed.

Lemma range_excludes_its_upper_end_witness :
  ∃ cs, Charset.init [py "z-a"] = Ok cs
        ∧ Charset.iter cs = map chr (seqZ (Z.min 122 97) (Z.abs (122 - 97)))
        ∧ Charset.len cs = Z.abs (122 - 97)
        ∧ chr (Z.max 122 97) ∉ Charset.iter cs.
Proof.
  apply (range_excludes_its_upper_end 122 97 []); vm_compute; discriminate.
Defined.

(** X5.  When neither [X] nor [Y] is a newline (which [.] of the pattern
    does not match), what follows the three characters [X-Y] in a piece
    specification is not read: the piece is the range alone. *)
Theorem text_after_a_range_is_dropped c1 c2 rest :
  c1 ≠ Charset.newline → c2 ≠ Charset.newline →
  Charset.init_piece (c1 :: Charset.hyphen :: c2 :: rest)
  = Charset.init_piece [c1; Charset.hyphen; c2].
Proof.
  intros H1%dot_newline H2%dot_newline. unfold Charset.init_piece.
  by rewrite !match_range.
Qed.

Lemma text_after_a_range_is_dropped_witness :
  Charset.init_piece (py "a-zfoo") = Charset.init_piece (py "a-z").
Proof.
  apply (text_after_a_range_is_dropped 97 122 (py "foo")); vm_compute; discriminate.
Defined.

(** X6.  On a charset built by the constructor [__getitem__] never raises,
    and it returns a symbol exactly for the indices of [0, len). *)
Theorem getitem_symbol_iff_in_range specs cs index :
  Charset.init specs = Ok cs →
  (∀ e, Charset.getitem cs index ≠ Raise e)
  ∧ ((∃ x, Charset.getitem cs index = Ok (Some x)) ↔ 0 ≤ index < Charset.len cs).
Proof.
  intros Hcs%init_wf.
  pose proof (sum_nonneg _ (sizes_positive _ _ Hcs)) as Hpos.
  unfold Charset.getitem, Charset.remap, Charset.len in *.
  destruct (Z.ltb_spec index 0).
  - rewrite getitem_loop_ge by (done || lia). split; [done|]. split; [|lia].
    by intros [x ?].
  - destruct (decide (index < sum (Charset.sizes cs))) as [Hlt|Hge].
    + destruct (getitem_loop_lt _ _ index Hcs) as (x & _ & ->); [lia|].
      split; [done|]. split; [lia|eauto].
    + rewrite getitem_loop_ge by (done || lia). split; [done|]. split; [|lia].
      by intros [x ?].
Qed.

Lemma getitem_symbol_iff_in_range_witness :
  (∀ e, Charset.getitem (charset_of default_specs) 62 ≠ Raise e)
  ∧ ((∃ x, Charset.getitem (charset_of default_specs) 62 = Ok (Some x))
     ↔ 0 ≤ 62 < Charset.len (charset_of default_specs)).
Proof.
  apply (getitem_symbol_iff_in_range default_specs). vm_compute. reflexivity.
Defined.

(** X7.  Reading back the text of each piece of a charset the constructor
    built gives the same charset: same pieces, same sizes. *)
Theorem pieces_read_back specs cs :
  Charset.init specs = Ok cs →
  Charset.init (map Charset.piece_str (Charset.pieces cs)) = Ok cs.
Proof. apply init_read_back. Qed.

Lemma pieces_read_back_witness :
  Charset.init (map Charset.piece_str (Charset.pieces (charset_of [py "z-a"; py "%20"; py "b-b"])))
  = Ok (charset_of [py "z-a"; py "%20"; py "b-b"]).
Proof.
  apply (pieces_read_back [py "z-a"; py "%20"; py "b-b"]). vm_compute. reflexivity.
Defined.

(** * CharsetType: splitting the option text *)

Section Splitting.
Variable ty : CharsetType.t.

Lemma split_loop_clean a rest pieces cur :
  clean ty a →
  CharsetType.split_loop ty (a ++ rest) pieces cur false = CharsetType.split_loop ty rest pieces (cur ++ a) false.
Proof.
  intros Ha. revert cur. induction Ha as [|c a [Hs He] _ IH]; intros cur; simpl.
  - by rewrite app_nil_r.
  - destruct (Z.eqb_spec c (CharsetType.escape ty)); [done|].
    destruct (Z.eqb_spec c (CharsetType.split ty)); [done|].
    rewrite IH. by rewrite <- app_assoc.
Qed.

Lemma split_loop_end pieces cur :
  cur ≠ [] → CharsetType.split_loop ty [] pieces cur false = Ok (pieces ++ [cur]).
Proof. by destruct cur. Qed.

Lemma split_loop_nonempty s pieces cur esc ps :
  Forall (fun p => p ≠ []) pieces →
  CharsetType.split_loop ty s pieces cur esc = Ok ps → Forall (fun p => p ≠ []) ps.
Proof.
  revert pieces cur esc. induction s as [|c s IH]; intros pieces cur esc Hp H; simpl in H.
  - destruct esc; [done|]. destruct cur; simplify_eq; [done|].
    apply Forall_app. split; [done|]. by repeat constructor.
  - destruct esc; [by eapply IH|].
    destruct (c =? CharsetType.escape ty); [by eapply IH|].
    destruct (c =? CharsetType.split ty); [|by eapply IH].
    destruct cur; [by eapply IH|]. eapply IH; [|done].
    apply Forall_app. split; [done|]. by repeat constructor.
Qed.

Lemma split_loop_dangling s pieces cur esc ps :
  CharsetType.split_loop ty s pieces cur esc = Ok ps →
  CharsetType.split_loop ty (s ++ [CharsetType.escape ty]) pieces cur esc = Raise ValueError.
Proof.
  revert pieces cur esc. induction s as [|c s IH]; intros pieces cur esc H; simpl in *.
  - destruct esc; [done|]. by rewrite Z.eqb_refl.
  - destruct esc; [by eapply IH|].
    destruct (c =? CharsetType.escape ty); [by eapply IH|].
    destruct (c =? CharsetType.split ty); [|by eapply IH].
    destruct cur; by eapply IH.
Qed.

Lemma split_loop_plain s pieces cur :
  CharsetType.escape ty ∉ s →
  ∃ h t, split (CharsetType.split ty) s = h :: t
         ∧ CharsetType.split_loop ty s pieces cur false
           = Ok (pieces ++ filter (fun p => p ≠ []) ((cur ++ h) :: t)).
Proof.
  revert pieces cur. induction s as [|c s IH]; intros pieces cur Hs; simpl.
  - exists [], []. split; [done|]. rewrite app_nil_r.
    destruct cur; [by rewrite app_nil_r|done].
  - apply not_elem_of_cons in Hs as [Hc Hs].
    destruct (Z.eqb_spec c (CharsetType.escape ty)); [done|].
    destruct (Z.eqb_spec c (CharsetType.split ty)) as [->|].
    + eexists _, _. split; [done|]. rewrite app_nil_r.
      destruct cur as [|a cur].
      * destruct (IH pieces [] Hs) as (h & t & Hh & Hl).
        etrans; [exact Hl|]. by rewrite Hh.
      * destruct (IH (pieces ++ [a :: cur]) [] Hs) as (h & t & Hh & Hl).
        etrans; [exact Hl|]. rewrite Hh. f_equal.
        rewrite (filter_cons_True _ (a :: cur)) by done.
        by rewrite <- app_assoc.
    + destruct (IH pieces (cur ++ [c]) Hs) as (h & t & Hh & Hl).
      rewrite Hh. eexists _, _. split; [done|].
      etrans; [exact Hl|]. by rewrite <- app_assoc.
Qed.

Lemma split_loop_join xs pieces :
  CharsetType.split ty ≠ CharsetType.escape ty →
  Forall (fun x => x ≠ [] ∧ clean ty x) xs →
  CharsetType.split_loop ty (sep_join [CharsetType.split ty] xs) pieces [] false = Ok (pieces ++ xs).
Proof.
  intros Hne Hxs. revert pieces.
  induction Hxs as [|x xs [Hx Hc] Hxs IH]; intros pieces; simpl.
  - by rewrite app_nil_r.
  - destruct xs as [|y xs].
    + rewrite <- (app_nil_r x) at 1. rewrite split_loop_clean by done.
      by apply split_loop_end.
    + rewrite split_loop_clean by done. simpl.
      destruct (Z.eqb_spec (CharsetType.split ty) (CharsetType.escape ty)); [done|].
      rewrite Z.eqb_refl. destruct x; [done|].
      rewrite IH. by rewrite <- app_assoc.
Qed.

End Splitting.

(** X8.  [splitByExcaped] never returns an empty piece. *)
Theorem split_pieces_are_not_empty ty string pieces :
  CharsetType.splitByExcaped ty string = Ok pieces →
  Forall (fun p => p ≠ []) pieces.
Proof. apply split_loop_nonempty. constructor. Qed.

Lemma split_pieces_are_not_empty_witness :
  Forall (fun p => p ≠ []) [py "a"; py "b"].
Proof.
  apply (split_pieces_are_not_empty CharsetType.chars_option (py ",a,,b,")).
  vm_compute. reflexivity.
Defined.

(** X9.  A text that [splitByExcaped] accepts is refused with [ValueError]
    once the escape character is appended to it: an escape character that
    escapes nothing is an error. *)
Theorem dangling_escape_is_refused ty string pieces :
  CharsetType.splitByExcaped ty string = Ok pieces →
  CharsetType.splitByExcaped ty (string ++ [CharsetType.escape ty]) = Raise ValueError.
Proof. apply split_loop_dangling. Qed.

Lemma dangling_escape_is_refused_witness :
  CharsetType.splitByExcaped CharsetType.chars_option
    (py "a-z,0-9" ++ [CharsetType.escape CharsetType.chars_option])
  = Raise ValueError.
Proof.
  apply (dangling_escape_is_refused CharsetType.chars_option (py "a-z,0-9")
           [py "a-z"; py "0-9"]).
  vm_compute. reflexivity.
Defined.

(** X10.  On a text without the escape character [splitByExcaped] returns
    the non-empty pieces of [string.split(separator)], in order. *)
Theorem split_without_escapes ty string :
  CharsetType.escape ty ∉ string →
  CharsetType.splitByExcaped ty string
  = Ok (filter (fun p => p ≠ []) (split (CharsetType.split ty) string)).
Proof.
  intros H. unfold CharsetType.splitByExcaped.
  destruct (split_loop_plain ty string [] [] H) as (h & t & -> & ->). done.
Qed.

Lemma split_without_escapes_witness :
  CharsetType.splitByExcaped CharsetType.chars_option (py ",a-z,,%20,")
  = Ok (filter (fun p => p ≠ [])
          (split (CharsetType.split CharsetType.chars_option) (py ",a-z,,%20,"))).
Proof.
  apply (split_without_escapes CharsetType.chars_option (py ",a-z,,%20,")).
  apply (bool_decide_unpack _). vm_compute. exact I.
Defined.

(** X11.  An escaped character is taken as it is, the separator and the
    escape character included, and stays in its piece: between two texts
    that hold neither, it gives the single piece made of the three. *)
Theorem escaped_character_is_literal ty a c b :
  clean ty a → clean ty b →
  CharsetType.splitByExcaped ty (a ++ CharsetType.escape ty :: c :: b)
  = Ok [a ++ c :: b].
Proof.
  intros Ha Hb. unfold CharsetType.splitByExcaped.
  rewrite split_loop_clean by done. simpl. rewrite Z.eqb_refl.
  rewrite <- (app_nil_r b) at 1. rewrite split_loop_clean by done.
  rewrite split_loop_end by (by destruct a).
  by rewrite <- app_assoc.
Qed.

Lemma escaped_character_is_literal_witness :
  CharsetType.splitByExcaped CharsetType.chars_option
    (py "a" ++ CharsetType.escape CharsetType.chars_option :: 44 :: py "b")
  = Ok [py "a" ++ 44 :: py "b"].
Proof.
  apply (escaped_character_is_literal CharsetType.chars_option (py "a") 44 (py "b"));
    apply (bool_decide_unpack _); vm_compute; exact I.
Defined.

Lemma convert_init_witness :
  ∃ specs, Charset.init specs = Ok (charset_of default_specs)
           ∧ 0 < Charset.len (charset_of default_specs).
Proof.
  apply (convert_init CharsetType.chars_option (py "a-z,A-Z,0-9,%20,-,_")).
  vm_compute. reflexivity.
Defined.

(** X13.  A text made of separators only, the empty text included, holds
    no piece: [convert] refuses it with [ValueError]. *)
Theorem convert_refuses_separators_only ty value :
  CharsetType.split ty ≠ CharsetType.escape ty →
  Forall (fun c => c = CharsetType.split ty) value →
  CharsetType.convert ty value = Raise ValueError.
Proof.
  intros Hne Hv. unfold CharsetType.convert, CharsetType.splitByExcaped.
  assert (CharsetType.split_loop ty value [] [] false = Ok []) as ->; [|done].
  induction Hv as [|c value -> _ IH]; simpl; [done|].
  destruct (Z.eqb_spec (CharsetType.split ty) (CharsetType.escape ty)); [done|].
  by rewrite Z.eqb_refl.
Qed.

Lemma convert_refuses_separators_only_witness :
  CharsetType.convert CharsetType.chars_option (py ",,,") = Raise ValueError.
Proof.
  apply (convert_refuses_separators_only CharsetType.chars_option (py ",,,")).
  - vm_compute. discriminate.
  - apply (bool_decide_unpack _). vm_compute. exact I.
Defined.

(** X14.  Round trip of [__str__] and [convert]: for a charset the
    constructor built from at least one piece, none of whose pieces holds a
    comma or a backslash, converting its text gives the charset back. *)
Theorem str_convert_round_trip specs cs :
  Charset.init specs = Ok cs →
  specs ≠ [] →
  Forall (fun p => clean CharsetType.chars_option (Charset.piece_str p)) (Charset.pieces cs) →
  CharsetType.convert CharsetType.chars_option (Charset.to_str cs) = Ok cs.
Proof.
  intros Hcs Hne Hclean. pose proof (init_wf _ _ Hcs) as Hwf.
  unfold CharsetType.convert, CharsetType.splitByExcaped, Charset.to_str.
  change [44] with [CharsetType.split CharsetType.chars_option].
  rewrite split_loop_join; [|done|].
  - simpl. rewrite (init_read_back _ _ Hcs).
    destruct (Z.eqb_spec (Charset.len cs) 0) as [H0|]; [|done].
    destruct (init_loop_extends _ _ _ Hcs) as (ps & ns & _ & Hns & _ & _ & Hlen).
    simpl in Hns. pose proof (sizes_positive _ _ Hwf) as Hpos.
    unfold Charset.len in H0. rewrite Hns in *.
    destruct ns as [|n ns]; [by destruct specs|].
    apply Forall_cons in Hpos as [Hn Hpos]. apply sum_nonneg in Hpos.
    simpl in H0. lia.
  - apply Forall_fmap. unfold wf_charset in Hwf.
    clear Hcs. induction Hwf as [|p n ps ns Hp _ IH]; [constructor|].
    apply Forall_cons in Hclean as [Hc1 Hc2]. constructor; [|by apply IH].
    split; [by eapply piece_str_nonempty|done].
Qed.

Lemma str_convert_round_trip_witness :
  CharsetType.convert CharsetType.chars_option (Charset.to_str (charset_of default_specs))
  = Ok (charset_of default_specs).
Proof.
  apply (str_convert_round_trip default_specs).
  - vm_compute. reflexivity.
  - discriminate.
  - apply (bool_decide_unpack _). vm_compute. exact I.
Defined.

(** * CharsetGenerator: the ends of the length range *)

Lemma tuples_complete pool p :
  Forall (fun x => x ∈ pool) p → p ∈ CharsetGenerator.tuples pool (length p).
Proof.
  induction 1 as [|x p Hx _ IH]; simpl; [apply list_elem_of_here|].
  apply list_elem_of_bind. exists x. split; [|done].
  apply list_elem_of_fmap. eauto.
Qed.

(** X15.  With a minimum length above the maximum the generator yields
    nothing and ends normally. *)
Theorem generator_empty_range cs m M :
  M < m →
  CharsetGenerator.iter {| CharsetGenerator.chars := cs; CharsetGenerator.mi := m;
                           CharsetGenerator.ma := M |} = ([], None).
Proof.
  intros H. unfold CharsetGenerator.iter, CharsetGenerator.range, seqZ. simpl.
  replace (Z.to_nat (M + 1 - m)) with 0%nat by lia. done.
Qed.

Lemma generator_empty_range_witness :
  CharsetGenerator.iter {| CharsetGenerator.chars := charset_of default_specs;
                           CharsetGenerator.mi := 3; CharsetGenerator.ma := 2 |}
  = ([], None).
Proof. apply (generator_empty_range (charset_of default_specs) 3 2). reflexivity. Defined.

(** X16.  With a negative minimum length that is not above the maximum the
    generator raises [ValueError] before it yields anything. *)
Theorem generator_negative_minimum cs m M :
  m < 0 → m ≤ M →
  CharsetGenerator.iter {| CharsetGenerator.chars := cs; CharsetGenerator.mi := m;
                           CharsetGenerator.ma := M |} = ([], Some ValueError).
Proof.
  intros Hm HM. unfold CharsetGenerator.iter, CharsetGenerator.range. simpl.
  rewrite seqZ_cons by lia. simpl. unfold CharsetGenerator.product.
  destruct (Z.ltb_spec m 0); [done|lia].
Qed.

Lemma generator_negative_minimum_witness :
  CharsetGenerator.iter {| CharsetGenerator.chars := charset_of default_specs;
                           CharsetGenerator.mi := -1; CharsetGenerator.ma := 2 |}
  = ([], Some ValueError).
Proof.
  apply (generator_negative_minimum (charset_of default_specs) (-1) 2);
    vm_compute; [reflexivity | discriminate].
Defined.

(** X17.  The generator is exhaustive: for [0 <= m], every concatenation of
    [l] symbols of the charset with [m <= l <= M] is among the strings it
    yields. *)
Theorem generator_is_exhaustive cs m M p :
  0 ≤ m →
  Forall (fun x => x ∈ Charset.iter cs) p →
  m ≤ Z.of_nat (length p) ≤ M →
  join p ∈ CharsetGenerator.yields
             {| CharsetGenerator.chars := cs; CharsetGenerator.mi := m;
                CharsetGenerator.ma := M |}.
Proof.
  intros Hm Hp Hl. unfold CharsetGenerator.yields, CharsetGenerator.iter. simpl.
  rewrite iter_loop_nonneg by (apply Forall_seqZ; lia). simpl.
  unfold strings_of. apply list_elem_of_bind. exists (Z.of_nat (length p)). split.
  - apply list_elem_of_fmap. exists p. split; [done|].
    rewrite Nat2Z.id. by apply tuples_complete.
  - apply elem_of_seqZ. lia.
Qed.

Lemma generator_is_exhaustive_witness :
  join [py "%20"; py "b"] ∈ CharsetGenerator.yields
    {| CharsetGenerator.chars := charset_of default_specs;
       CharsetGenerator.mi := 1; CharsetGenerator.ma := 2 |}.
Proof.
  apply (generator_is_exhaustive (charset_of default_specs) 1 2 [py "%20"; py "b"]).
  - vm_compute. discriminate.
  - apply (bool_decide_unpack _). vm_compute. exact I.
  - vm_compute. split; discriminate.
Defined.

(** * The start-up code: the host *)

(** X18.  [hbuster] removes one trailing slash from the host and no more,
    leaves a host without one as it is, and fails with [IndexError] on the
    empty host. *)
Theorem host_loses_one_trailing_slash host :
  hbuster_host (host ++ [47]) = Ok host
  ∧ (host ≠ [] → last host ≠ Some 47 → hbuster_host host = Ok host)
  ∧ hbuster_host [] = Raise IndexError.
Proof.
  unfold hbuster_host. split_and!.
  - rewrite last_snoc, Z.eqb_refl. by rewrite removelast_last.
  - intros Hne Hl. destruct (last host) as [c|] eqn:Hc.
    + destruct (Z.eqb_spec c 47); [by subst|done].
    + by apply last_None in Hc.
  - done.
Qed.

Lemma host_loses_one_trailing_slash_witness :
  hbuster_host (py "http://host") = Ok (py "http://host").
Proof.
  apply (host_loses_one_trailing_slash (py "http://host")); vm_compute; discriminate.
Defined.

(** * The session: steps *)

Section Scheduler.
Import Session.
Variable c : config.

Lemma sum_list_with_insert {A} (f : A → nat) (l : list A) i x y :
  l !! i = Some x →
  (sum_list_with f (<[i:=y]> l) + f x = sum_list_with f l + f y)%nat.
Proof.
  revert i. induction l as [|a l IH]; intros [|i] H; simplify_eq/=; [lia|].
  specialize (IH _ H). lia.
Qed.

Lemma sum_list_with_delete {A} (f : A → nat) (l : list A) i x :
  l !! i = Some x →
  (sum_list_with f (delete i l) + f x = sum_list_with f l)%nat.
Proof.
  revert i. induction l as [|a l IH]; intros [|i] H; simplify_eq/=; [lia|].
  specialize (IH _ H). lia.
Qed.

Lemma elem_of_insert_inv {A} (l : list A) i x y :
  x ∈ <[i:=y]> l → x = y ∨ x ∈ l.
Proof.
  revert i. induction l as [|a l IH]; intros [|i]; simpl; rewrite ?elem_of_cons;
    [by right..| |]; intros [?|?]; auto.
  destruct (IH i) as [?|?]; auto.
Qed.

Lemma Forall_insert_inv {A} (P : A → Prop) (l : list A) i x y :
  l !! i = Some x → Forall P (<[i:=y]> l) → (P x → Forall P l).
Proof.
  intros Hx Hall Hpx. rewrite Forall_forall in *. intros z Hz.
  apply list_elem_of_lookup in Hz as [j Hj].
  destruct (decide (i = j)) as [->|Hne]; [by simplify_eq|].
  apply Hall. apply list_elem_of_lookup. exists j.
  by rewrite list_lookup_insert_ne.
Qed.

Lemma weight_next_ext path rest :
  weight (next_ext path rest) = S (2 * length rest).
Proof. destruct rest; simpl; lia. Qed.

(** The cases of a turn of the loop. *)
Lemma loop_turn_cases id s s' w :
  loop_turn c id s = (s', w) →
  (workPools s = [] ∧ s' = s ∧ w = Returned)
  ∨ (∃ j confirmed, workPools s !! j = Some confirmed ∧ poolFiles s !! j = Some []
       ∧ s' = {| workPools := delete j (workPools s);
                 poolFiles := delete j (poolFiles s);
                 seen := seen s; found := found s;
                 requests := requests s; echoed := echoed s |}
       ∧ w = AtLoop)
  ∨ (∃ j confirmed line file,
       workPools s !! j = Some confirmed ∧ poolFiles s !! j = Some (line :: file)
       ∧ s' = {| workPools := workPools s;
                 poolFiles := <[j:=file]> (poolFiles s);
                 seen := seen s; found := found s;
                 requests := requests s; echoed := echoed s |}
       ∧ ((confirmed ++ py "/" ++ strip line ∈ seen s ∧ w = AtLoop)
          ∨ ((confirmed ++ py "/" ++ strip line ∉ seen s)
             ∧ w = next_ext (confirmed ++ py "/" ++ strip line) (extensions c))))
  ∨ (length (workPools s) ≠ length (poolFiles s) ∧ s' = s ∧ w = Raised IndexError).
Proof.
  unfold loop_turn. intros H.
  destruct (workPools s) as [|job jobs] eqn:Hj; [left; by simplify_eq|].
  cbv zeta in H. set (j := (id mod length (job :: jobs))%nat) in *.
  assert (j < length (job :: jobs))%nat as Hlt by (by apply Nat.mod_upper_bound).
  destruct ((job :: jobs) !! j) as [confirmed|] eqn:Hc;
    [|apply lookup_ge_None in Hc; unfold str in *; lia].
  destruct (poolFiles s !! j) as [[|line file]|] eqn:Hf.
  - right; left. exists j, confirmed. by simplify_eq.
  - right; right; left. exists j, confirmed, line, file.
    split_and!; [done|done|by case_bool_decide; simplify_eq|].
    case_bool_decide; simplify_eq; [by left|by right].
  - right; right; right. apply lookup_ge_None in Hf.
    split_and!; [unfold str in *; lia|by simplify_eq..].
Qed.

(** The cases of the answer to a request. *)
Lemma test_turn_cases path fileExt rest r s s' w :
  test_turn c path fileExt rest r s = (s', w) →
  (r = Failed ∧ s' = s ∧ w = Raised ClientError)
  ∨ (∃ v, r = Status v ∧ client c = Aiohttp ∧ s' = s
          ∧ w = Leaving path fileExt rest (Raise TypeError))
  ∨ (∃ v, r = Status v ∧ client c = StandIn ∧ py_in v (validStatus c) = false
          ∧ s' = s ∧ w = Leaving path fileExt rest (Ok false))
  ∨ (∃ v, r = Status v ∧ client c = StandIn ∧ py_in v (validStatus c) = true
          ∧ s' = {| workPools := workPools s; poolFiles := poolFiles s;
                    seen := seen s;
                    found := found s ++ [host c ++ (path ++ fileExt)];
                    requests := requests s; echoed := echoed s |}
          ∧ w = Leaving path fileExt rest (Ok true)).
Proof.
  unfold test_turn, testPath. intros H.
  destruct r as [v|]; [|left; by simplify_eq].
  destruct (client c) eqn:Hc; [right; left; exists v; by simplify_eq|].
  destruct (py_in v (validStatus c)) eqn:Hv; simplify_eq.
  - right; right; right. by exists v.
  - right; right; left. by exists v.
Qed.

Lemma loop_turn_measure id s s' w :
  loop_turn c id s = (s', w) →
  (S (2 * length (extensions c)) * pending s' + length (workPools s') + weight w
   < S (2 * length (extensions c)) * pending s + length (workPools s) + 1)%nat.
Proof.
  unfold pending. intros H.
  destruct (loop_turn_cases _ _ _ _ H)
    as [(Hj & -> & ->)|[(j & cf & Hc & Hf & -> & ->)
       |[(j & cf & line & file & Hc & Hf & -> & Hw)|(_ & -> & ->)]]];
    cbn [workPools poolFiles weight].
  - lia.
  - pose proof (sum_list_with_delete length _ _ _ Hf) as Hdel.
    pose proof (length_delete _ _ (mk_is_Some _ _ Hc)) as Hlen.
    pose proof (lookup_lt_Some _ _ _ Hc).
    rewrite Hlen, <- Hdel. cbn [length]. unfold str in *. lia.
  - pose proof (sum_list_with_insert length _ _ _ file Hf) as Hins.
    cbn [length] in Hins.
    assert (weight w ≤ S (2 * length (extensions c)))%nat as Hle.
    { destruct Hw as [[_ ->]|[_ ->]]; [simpl; lia|]. rewrite weight_next_ext. lia. }
    assert (sum_list_with length (poolFiles s)
            = S (sum_list_with length (<[j:=file]> (poolFiles s)))) as -> by lia.
    rewrite Nat.mul_succ_r. lia.
  - lia.
Qed.

(** An answer leaves jobs and sources alone. *)
Lemma test_turn_frame path fileExt rest r s s' w :
  test_turn c path fileExt rest r s = (s', w) →
  workPools s' = workPools s ∧ poolFiles s' = poolFiles s ∧ seen s' = seen s
  ∧ requests s' = requests s ∧ echoed s' = echoed s
  ∧ (weight w < 3 + 2 * length rest)%nat.
Proof.
  intros H.
  destruct (test_turn_cases _ _ _ _ _ _ _ H)
    as [(-> & -> & ->)|[(v & -> & _ & -> & ->)|[(v & -> & _ & _ & -> & ->)
       |(v & -> & _ & _ & -> & ->)]]]; simpl; split_and!; done || lia.
Qed.

(** Without recursion the exit of a test leaves jobs and sources alone. *)
Lemma leave_turn_frame path rest out s s' w :
  recursive c = false →
  leave_turn c path rest out s = (s', w) →
  workPools s' = workPools s ∧ poolFiles s' = poolFiles s ∧ seen s' = seen s
  ∧ found s' = found s
  ∧ (weight w < 2 + 2 * length rest)%nat.
Proof.
  unfold leave_turn, valid_path. intros Hrec H. rewrite Hrec in H.
  destruct out as [[|]|e]; simplify_eq/=; rewrite ?weight_next_ext;
    split_and!; done || lia.
Qed.

Lemma step_measure id r st st' :
  recursive c = false →
  task_step c id r st = Some st' → (measure c st' < measure c st)%nat.
Proof.
  unfold task_step, measure. intros Hrec H.
  destruct (workers st !! id) as [[|path fileExt rest|path fileExt rest out| |]|] eqn:Hw;
    [| | |done..].
  - destruct (loop_turn c id (session st)) as [s w] eqn:Ht. simplify_eq/=.
    pose proof (loop_turn_measure _ _ _ _ Ht).
    pose proof (sum_list_with_insert weight _ _ _ w Hw). simpl in *. lia.
  - destruct (test_turn c path fileExt rest r (session st)) as [s w] eqn:Ht.
    simplify_eq/=.
    destruct (test_turn_frame _ _ _ _ _ _ _ Ht) as (Hj & Hf & _ & _ & _ & Hlt).
    pose proof (sum_list_with_insert weight _ _ _ w Hw).
    unfold pending. rewrite Hj, Hf. simpl in *. lia.
  - destruct (leave_turn c path rest out (session st)) as [s w] eqn:Ht.
    simplify_eq/=.
    destruct (leave_turn_frame _ _ _ _ _ _ Hrec Ht) as (Hj & Hf & _ & _ & Hlt).
    pose proof (sum_list_with_insert weight _ _ _ w Hw).
    unfold pending. rewrite Hj, Hf. simpl in *. lia.
Qed.

(** Without recursion every sequence of steps is finite. *)
Lemma steps_well_founded st :
  recursive c = false → Acc (fun st2 st1 => step c st1 st2) st.
Proof.
  intros Hrec. remember (measure c st) as n eqn:Hn. revert st Hn.
  induction (lt_wf n) as [n _ IH]. intros st ->.
  constructor. intros st' (id & r & Hstep).
  eapply IH; [|done]. by eapply step_measure.
Qed.

Lemma run_invariant (P : state → Prop) (Q : response → Prop) sched st st' :
  (∀ id r st1 st2, Q r → P st1 → task_step c id r st1 = Some st2 → P st2) →
  Forall (fun e => Q (snd e)) sched →
  P st → run c sched st = Some st' → P st'.
Proof.
  intros Hstep Hsched. revert st.
  induction Hsched as [|[id r] sched Hr _ IH]; intros st HP Hrun; simpl in Hrun.
  - by simplify_eq.
  - destruct (task_step c id r st) as [st1|] eqn:H1; [|done].
    eapply IH; [|done]. by eapply Hstep.
Qed.

(** What a step does to the task that takes it. *)
Lemma task_step_cases id r st st' :
  task_step c id r st = Some st' →
  ∃ w0 w, workers st !! id = Some w0 ∧ workers st' = <[id:=w]> (workers st)
    ∧ ((w0 = AtLoop ∧ loop_turn c id (session st) = (session st', w))
       ∨ (∃ path fileExt rest, w0 = InTestPath path fileExt rest
            ∧ test_turn c path fileExt rest r (session st) = (session st', w))
       ∨ (∃ path fileExt rest out, w0 = Leaving path fileExt rest out
            ∧ leave_turn c path rest out (session st) = (session st', w))).
Proof.
  unfold task_step. intros H.
  destruct (workers st !! id) as [[|path fileExt rest|path fileExt rest out| |]|] eqn:Hw;
    [| | |done..].
  - destruct (loop_turn c id (session st)) as [s w] eqn:Ht. simplify_eq/=.
    exists AtLoop, w. split_and!; [done..|]. by left.
  - destruct (test_turn c path fileExt rest r (session st)) as [s w] eqn:Ht.
    simplify_eq/=. exists (InTestPath path fileExt rest), w. split_and!; [done..|].
    right; left. by exists path, fileExt, rest.
  - destruct (leave_turn c path rest out (session st)) as [s w] eqn:Ht.
    simplify_eq/=. exists (Leaving path fileExt rest out), w. split_and!; [done..|].
    right; right. by exists path, fileExt, rest, out.
Qed.

Lemma loop_turn_aligned id s s' w :
  aligned s → loop_turn c id s = (s', w) →
  aligned s' ∧ seen s' = seen s ∧ (∀ e, w ≠ Raised e)
  ∧ (w = Returned → workPools s' = [])
  ∧ (workPools s = [] → w = Returned).
Proof.
  intros [Hlen Hseen] H.
  destruct (loop_turn_cases _ _ _ _ H)
    as [(Hj & -> & ->)|[(j & cf & Hc & Hf & -> & ->)
       |[(j & cf & line & file & Hc & Hf & -> & Hw)|(Hne & _)]]]; [| | |done].
  - by split_and!.
  - unfold aligned. cbn [workPools poolFiles seen]. split_and!; try done.
    + rewrite !length_delete by eauto. by rewrite Hlen.
    + intros p Hp%list_elem_of_delete_inv. auto.
    + intros Hnil. by rewrite Hnil in Hc.
  - unfold aligned. cbn [workPools poolFiles seen]. rewrite length_insert.
    split_and!; try done.
    + destruct Hw as [[_ ->]|[_ ->]]; [done|]. by destruct (extensions c).
    + destruct Hw as [[_ ->]|[_ ->]]; [done|]. by destruct (extensions c).
    + intros Hnil. by rewrite Hnil in Hc.
Qed.

Lemma test_turn_aligned path fileExt rest r s s' w :
  aligned s → test_turn c path fileExt rest r s = (s', w) →
  aligned s' ∧ w ≠ Returned
  ∧ (∀ e, w = Raised e → r = Failed ∧ e = ClientError ∧ s' = s).
Proof.
  intros Hal H.
  destruct (test_turn_cases _ _ _ _ _ _ _ H)
    as [(-> & -> & ->)|[(v & -> & _ & -> & ->)|[(v & -> & _ & _ & -> & ->)
       |(v & -> & _ & _ & -> & ->)]]]; split_and!; try done.
  intros e He. by simplify_eq.
Qed.

Lemma leave_turn_aligned path rest out s s' w :
  aligned s → leave_turn c path rest out s = (s', w) →
  aligned s' ∧ seen s ⊆ seen s' ∧ w ≠ Returned
  ∧ (∀ e, w = Raised e → out = Raise e ∧ s' = s).
Proof.
  unfold leave_turn, valid_path, aligned. intros [Hlen Hseen] H.
  assert (∀ e, next_ext path rest ≠ Raised e) as Hne by (by destruct rest).
  assert (next_ext path rest ≠ Returned) as Hnr by (by destruct rest).
  destruct out as [[|]|e]; [destruct (recursive c)| |];
    injection H as <- <-; cbn [workPools poolFiles seen];
    split_and!; try done; try (intros e' He; by destruct (Hne e')).
  - rewrite !length_app. simpl. lia.
  - intros p [Hp|Hp%list_elem_of_singleton]%elem_of_app; set_solver.
  - set_solver.
  - intros e' He. by simplify_eq.
Qed.

(** A step keeps jobs and sources aligned and never shrinks [seen]. *)
Lemma step_aligned id r st st' :
  aligned (session st) → task_step c id r st = Some st' →
  aligned (session st') ∧ seen (session st) ⊆ seen (session st').
Proof.
  intros Hal H.
  destruct (task_step_cases _ _ _ _ H)
    as (w0 & w & _ & _ & [(_ & Ht)|[(p & e & rest & _ & Ht)|(p & e & rest & out & _ & Ht)]]).
  - destruct (loop_turn_aligned _ _ _ _ Hal Ht) as (? & -> & _). done.
  - destruct (test_turn_aligned _ _ _ _ _ _ _ Hal Ht) as (? & _).
    destruct (test_turn_frame _ _ _ _ _ _ _ Ht) as (_ & _ & -> & _). done.
  - by destruct (leave_turn_aligned _ _ _ _ _ _ Hal Ht) as (? & ? & _).
Qed.

Lemma start_aligned : aligned (session (start c)).
Proof. split; [done|]. simpl. intros p Hp%list_elem_of_singleton. set_solver. Qed.

Lemma run_aligned_seen sched st st' :
  aligned (session st) → run c sched st = Some st' →
  aligned (session st') ∧ seen (session st) ⊆ seen (session st').
Proof.
  intros Hal Hrun.
  apply (run_invariant
           (fun st1 => aligned (session st1) ∧ seen (session st) ⊆ seen (session st1))
           (fun _ => True) sched st st'); [|by apply Forall_true|done|done].
  intros id r st1 st2 _ [Hal1 Hsub] Hstep.
  destruct (step_aligned _ _ _ _ Hal1 Hstep). split; [done|set_solver].
Qed.

(** A state is final exactly when no task is active. *)
Lemma final_inactive st :
  final c st ↔ Forall (fun w => active w = false) (workers st).
Proof.
  split.
  - intros Hfin. apply Forall_forall. intros w [id Hid]%list_elem_of_lookup.
    destruct w; try done.
    + destruct (loop_turn c id (session st)) as [s w] eqn:Ht.
      exfalso. eapply Hfin. exists id, Failed. unfold task_step. by rewrite Hid, Ht.
    + destruct (test_turn c path fileExt rest Failed (session st)) as [s w] eqn:Ht.
      exfalso. eapply Hfin. exists id, Failed. unfold task_step. by rewrite Hid, Ht.
    + destruct (leave_turn c path rest out (session st)) as [s w] eqn:Ht.
      exfalso. eapply Hfin. exists id, Failed. unfold task_step. by rewrite Hid, Ht.
  - intros Hall st' (id & r & Hstep). unfold task_step in Hstep.
    destruct (workers st !! id) as [w|] eqn:Hw; [|done].
    rewrite Forall_forall in Hall.
    specialize (Hall w (list_elem_of_lookup_2 _ _ _ Hw)). by destruct w.
Qed.

(** A task that can move moves, whatever the answer. *)
Lemma active_steps id r st w :
  workers st !! id = Some w → active w = true → ∃ st', task_step c id r st = Some st'.
Proof.
  intros Hid Hw. unfold task_step. rewrite Hid. destruct w; try done.
  - destruct (loop_turn c id (session st)); eauto.
  - destruct (test_turn c path fileExt rest r (session st)); eauto.
  - destruct (leave_turn c path rest out (session st)); eauto.
Qed.

(** Without recursion some run with every request answered reaches a
    final state. *)
Lemma final_state_reached st :
  recursive c = false →
  ∃ sched st', answered sched ∧ run c sched st = Some st' ∧ final c st'.
Proof.
  intros Hrec. remember (measure c st) as n eqn:Hn. revert st Hn.
  induction (lt_wf n) as [n _ IH]. intros st ->.
  destruct (decide (Exists (fun w => active w = true) (workers st))) as [Hex|Hno].
  - apply Exists_exists in Hex as (w & [id Hid]%list_elem_of_lookup & Hw).
    destruct (active_steps id (Status (PyInt 0)) st w Hid Hw) as [st1 H1].
    destruct (IH _ (step_measure _ _ _ _ Hrec H1) st1 eq_refl)
      as (sched & st' & Hans & Hrun & Hfin).
    exists ((id, Status (PyInt 0)) :: sched), st'. split_and!; [|by simpl; rewrite H1|done].
    by constructor.
  - exists [], st. split_and!; [constructor|done|].
    apply final_inactive. apply Forall_forall. intros w Hw.
    destruct (active w) eqn:Ha; [|done].
    destruct Hno. apply Exists_exists. eauto.
Qed.

(** Without recursion a task that has left its loop has seen the job list
    empty, and the list stays empty. *)
Lemma step_settled id r st st' :
  recursive c = false →
  settled c st → task_step c id r st = Some st' → settled c st'.
Proof.
  intros Hrec (Hal & Hn & Hret) H.
  destruct (step_aligned _ _ _ _ Hal H) as [Hal' _].
  destruct (task_step_cases _ _ _ _ H)
    as (w0 & w & Hw0 & Hws & Hcase).
  split; [done|]. rewrite Hws, length_insert. split; [done|].
  intros [Heq|He]%elem_of_insert_inv.
  - destruct Hcase as [(_ & Ht)|[(p & e & rest & _ & Ht)|(p & e & rest & out & _ & Ht)]].
    + destruct (loop_turn_aligned _ _ _ _ Hal Ht) as (_ & _ & _ & Hr & _). auto.
    + by destruct (test_turn_aligned _ _ _ _ _ _ _ Hal Ht) as (_ & ? & _).
    + by destruct (leave_turn_aligned _ _ _ _ _ _ Hal Ht) as (_ & _ & ? & _).
  - specialize (Hret He).
    destruct Hcase as [(_ & Ht)|[(p & e & rest & _ & Ht)|(p & e & rest & out & _ & Ht)]].
    + destruct (loop_turn_aligned _ _ _ _ Hal Ht) as (_ & _ & _ & Hr1 & Hr2). auto.
    + destruct (test_turn_frame _ _ _ _ _ _ _ Ht) as (-> & _). done.
    + destruct (leave_turn_frame _ _ _ _ _ _ Hrec Ht) as (-> & _). done.
Qed.

Lemma start_settled : settled c (start c).
Proof.
  split; [apply start_aligned|]. split; [apply length_replicate|].
  intros He%elem_of_replicate_inv. done.
Qed.

Lemma run_settled sched st :
  recursive c = false → after c sched = Some st → settled c st.
Proof.
  intros Hrec Hrun.
  apply (run_invariant (settled c) (fun _ => True) sched (start c) st);
    [|by apply Forall_true|apply start_settled|done].
  intros id r st1 st2 _ Hs Hstep. by eapply step_settled.
Qed.

(** At the end of a run in which no task has raised, every task has
    returned, and the jobs and their sources are gone. *)
Lemma final_settled st :
  (1 ≤ numTasks c)%nat → settled c st → final c st → ¬ crashed st →
  workPools (session st) = [] ∧ poolFiles (session st) = []
  ∧ Forall (fun w => w = Returned) (workers st).
Proof.
  intros HT ([Hlen _] & Hn & Hret) Hfin%final_inactive Hcr.
  assert (Forall (fun w => w = Returned) (workers st)) as Hall.
  { rewrite Forall_forall in *. intros w Hw. specialize (Hfin w Hw).
    destruct w; try done. destruct Hcr. by exists e. }
  assert (workPools (session st) = []) as Hjobs.
  { apply Hret. destruct (workers st) as [|w ws]; [simpl in Hn; lia|].
    apply Forall_cons in Hall as [-> _]. apply list_elem_of_here. }
  split_and!; [done| |done]. rewrite Hjobs in Hlen.
  by destruct (poolFiles (session st)).
Qed.

End Scheduler.

(** * The session: a failed request *)

(** C3, as the code has it.  When the pending request of a task fails with
    a transport error, nothing is recorded or counted for the attempt and
    the request is not sent again; but the error is not caught: the task
    ends with the exception, which [asyncio.gather] hands to [start], and
    the task takes no further step. *)
Theorem transport_error_ends_the_task c id st path fileExt rest :
  Session.workers st !! id = Some (Session.InTestPath path fileExt rest) →
  ∃ st', Session.task_step c id Failed st = Some st'
         ∧ Session.session st' = Session.session st
         ∧ Session.workers st' !! id = Some (Session.Raised ClientError)
         ∧ Session.crashed st'
         ∧ (∀ r, Session.task_step c id r st' = None).
Proof.
  intros Hw. unfold Session.task_step. rewrite Hw. simpl.
  eexists. split; [done|]. simpl.
  assert (<[id:=Session.Raised ClientError]> (Session.workers st) !! id
          = Some (Session.Raised ClientError)) as Hid.
  { apply list_lookup_insert_eq. by eapply lookup_lt_Some. }
  split_and!; [done|done| |].
  - exists ClientError. by eapply list_elem_of_lookup_2.
  - intros r. by rewrite Hid.
Qed.

Lemma transport_error_ends_the_task_witness :
  let c := wordlist_config 1 [py "admin"] false None in
  let st := {| Session.session := Session.init c;
               Session.workers := [Session.InTestPath (py "/admin") [] [py "."]] |} in
  ∃ st', Session.task_step c 0 Failed st = Some st'
         ∧ Session.session st' = Session.session st
         ∧ Session.workers st' !! 0%nat = Some (Session.Raised ClientError)
         ∧ Session.crashed st'
         ∧ (∀ r, Session.task_step c 0 r st' = None).
Proof.
  intros c st.
  apply (transport_error_ends_the_task c 0 st (py "/admin") [] [py "."]).
  reflexivity.
Defined.

(** C3, as the specification has it, fails: one task over the word list
    [admin], [user]; the request for [/admin] fails.  The task has raised,
    no step is left to take, and [user] is never drawn. *)
Lemma transport_error_stops_the_run :
  let c := wordlist_config 1 [py "admin"; py "user"] false None in
  ∃ st, after c [turn 0; answer 0 Failed] = Some st
        ∧ Session.workers st = [Session.Raised ClientError]
        ∧ Session.poolFiles (Session.session st) = [[py "user"]]
        ∧ Session.requests (Session.session st) = 0
        ∧ (∀ id r, Session.task_step c id r st = None).
Proof.
  intros c. eexists. split; [vm_compute; reflexivity|].
  split_and!; [reflexivity..|].
  intros [|[|id]] r; reflexivity.
Qed.

(** * The session: the end of a run without recursion *)

(** C6, as the code has it.  Without recursion, for any candidate list and
    at least one task: every sequence of steps is finite, a final state is
    reached, and in every final state in which no task has ended with an
    exception the job list is empty and every task has returned. *)
Theorem nonrecursive_run_terminates c :
  Session.recursive c = false →
  (1 ≤ Session.numTasks c)%nat →
  Acc (fun st2 st1 => Session.step c st1 st2) (Session.start c)
  ∧ (∃ sched st, after c sched = Some st ∧ Session.final c st)
  ∧ (∀ sched st, after c sched = Some st → Session.final c st →
       ¬ Session.crashed st →
       Session.workPools (Session.session st) = []
       ∧ Forall (fun w => w = Session.Returned) (Session.workers st)).
Proof.
  intros Hrec HT. split; [by apply steps_well_founded|]. split.
  - destruct (final_state_reached c (Session.start c) Hrec) as (sched & st & _ & ? & ?).
    by exists sched, st.
  - intros sched st Hrun Hfin Hcr.
    pose proof (run_settled c sched st Hrec Hrun) as Hs.
    by destruct (final_settled c st HT Hs Hfin Hcr) as (? & _ & ?).
Qed.

Lemma nonrecursive_run_terminates_witness :
  let c := wordlist_config 2 [py "admin"; py "user"] false None in
  Acc (fun st2 st1 => Session.step c st1 st2) (Session.start c)
  ∧ (∃ sched st, after c sched = Some st ∧ Session.final c st)
  ∧ (∀ sched st, after c sched = Some st → Session.final c st →
       ¬ Session.crashed st →
       Session.workPools (Session.session st) = []
       ∧ Forall (fun w => w = Session.Returned) (Session.workers st)).
Proof.
  intros c. apply (nonrecursive_run_terminates c); [reflexivity | simpl; lia].
Defined.

(** C6, as the specification has it, fails: one task over the word list
    [admin], no recursion; the request for [/admin] fails.  The run is over,
    and the root job is still in the list. *)
Lemma failed_request_leaves_the_job :
  let c := wordlist_config 1 [py "admin"] false None in
  Session.recursive c = false
  ∧ ∃ st, after c [turn 0; answer 0 Failed] = Some st
          ∧ Session.final c st
          ∧ Session.workPools (Session.session st) = [[]]
          ∧ Session.workPools (Session.session st) ≠ [].
Proof.
  intros c. split; [reflexivity|].
  eexists. split; [vm_compute; reflexivity|].
  split; [|split; [reflexivity|discriminate]].
  apply final_inactive. simpl. by repeat constructor.
Qed.

(** * The session as [start] runs it: against aiohttp *)

Section Aiohttp.
Import Session.
Variable c : config.
Hypothesis Hclient : client c = Aiohttp.

Lemma step_barren id r st st' :
  barren st → task_step c id r st = Some st' → barren st'.
Proof.
  intros (Hseen & Hjobs & Hlen & Hfound & Hecho & Hreq & Hws) H.
  destruct (task_step_cases c _ _ _ _ H) as (w0 & w & Hw0 & Hw' & Hcase).
  unfold barren. rewrite Hw'.
  destruct Hcase as [(_ & Ht)|[(p & e & rest & _ & Ht)|(p & e & rest & out & -> & Ht)]].
  - destruct (loop_turn_cases c _ _ _ _ Ht)
      as [(_ & -> & ->)|[(j & cf & Hc & Hf & -> & ->)
         |[(j & cf & line & file & Hc & Hf & -> & Hw)|(_ & -> & ->)]]];
      cbn [workPools poolFiles seen found echoed requests];
      split_and!; try done; try (by apply Forall_insert).
    + by apply Forall_delete.
    + pose proof (length_delete _ _ (mk_is_Some _ _ Hc)). lia.
    + apply Forall_insert; [done|].
      destruct Hw as [[_ ->]|[_ ->]]; [done|]. by destruct (extensions c).
  - destruct (test_turn_cases c _ _ _ _ _ _ _ Ht)
      as [(-> & -> & ->)|[(v & -> & _ & -> & ->)|[(v & -> & Hc & _)
         |(v & -> & Hc & _)]]]; try congruence;
      split_and!; try done; by apply Forall_insert.
  - rewrite Forall_forall in Hws.
    pose proof (Hws _ (list_elem_of_lookup_2 _ _ _ Hw0)) as Hout.
    destruct out as [valid|e']; [done|].
    unfold leave_turn in Ht. injection Ht as <- <-.
    split_and!; try done. apply Forall_insert; [|done]. by apply Forall_forall.
Qed.

Lemma start_barren : barren (start c).
Proof.
  unfold barren. simpl.
  split; [done|]. split; [by repeat constructor|]. split; [lia|].
  split; [done|]. split; [done|]. split; [done|].
  apply Forall_forall. intros w ->%elem_of_replicate_inv. done.
Qed.

Lemma run_barren sched st : after c sched = Some st → barren st.
Proof.
  intros Hrun.
  apply (run_invariant c barren (fun _ => True) sched (start c) st);
    [|by apply Forall_true|apply start_barren|done].
  intros id r st1 st2 _ Hb Hstep. by eapply step_barren.
Qed.

End Aiohttp.

(** Every session [hbuster] builds runs against aiohttp. *)
Lemma hbuster_client tasks dirlist lines chars mi ma recursive extensions status host c :
  hbuster tasks dirlist lines chars mi ma recursive extensions status host = Ok c →
  Session.client c = Aiohttp.
Proof.
  unfold hbuster. intros H.
  destruct (hbuster_check dirlist mi ma); [|done].
  destruct (hbuster_host host); [|done].
  by injection H as <-.
Qed.



(** C2, at a failing input.  Default [--status 200], word list [admin], one
    task; the request is answered with the status 200.  [testPath] raises
    [TypeError] where it calls [resp.status()]: the run ends with the task
    raised, nothing found, nothing echoed and no request counted. *)
Theorem valid_status_is_not_recorded :
  let c := wordlist_config 1 [py "admin"] false None in
  let ok := Status (PyInt 200) in
  (∀ path s, Session.testPath c path ok s = Raise TypeError)
  ∧ (Session.found ∘ Session.session) <$> after c [turn 0; answer 0 ok; turn 0] = Some []
  ∧ (Session.echoed ∘ Session.session) <$> after c [turn 0; answer 0 ok; turn 0] = Some []
  ∧ (Session.requests ∘ Session.session) <$> after c [turn 0; answer 0 ok; turn 0] = Some 0
  ∧ Session.workers <$> after c [turn 0; answer 0 ok; turn 0]
    = Some [Session.Raised TypeError].
Proof.
  intros c ok. split; [reflexivity|]. split_and!; vm_compute; reflexivity.
Qed.

(** * The session: what every run keeps *)

Lemma bind_insert_perm {A B} (g : A → list B) (l : list A) i x y :
  l !! i = Some x → (<[i:=y]> l ≫= g) ++ g x ≡ₚ (l ≫= g) ++ g y.
Proof.
  revert i. induction l as [|a l IH]; intros [|i] H; simpl in H; simplify_eq; csimpl.
  - rewrite <- !app_assoc.
    rewrite (Permutation_app_comm (l ≫= g) (g x)), (Permutation_app_comm (l ≫= g) (g y)).
    rewrite !app_assoc. apply Permutation_app_tail, Permutation_app_comm.
  - rewrite <- !app_assoc. apply Permutation_app_head. by apply IH.
Qed.

Lemma bind_delete_perm {A B} (g : A → list B) (l : list A) i x :
  l !! i = Some x → (delete i l ≫= g) ++ g x ≡ₚ l ≫= g.
Proof.
  revert i. induction l as [|a l IH]; intros [|i] H; simpl in H; simplify_eq; csimpl.
  - apply Permutation_app_comm.
  - rewrite <- !app_assoc. apply Permutation_app_head. by apply IH.
Qed.

Lemma elem_of_insert_other {A} (l : list A) i x y z :
  l !! i = Some x → z ∈ l → z ≠ x → z ∈ <[i:=y]> l.
Proof.
  intros Hx [j Hj]%list_elem_of_lookup Hne.
  destruct (decide (i = j)) as [->|Hij]; [by simplify_eq|].
  apply list_elem_of_lookup. exists j. by rewrite list_lookup_insert_ne.
Qed.

Lemma elem_of_insert_here {A} (l : list A) i x y :
  l !! i = Some x → y ∈ <[i:=y]> l.
Proof.
  intros Hx. apply list_elem_of_lookup. exists i.
  apply list_lookup_insert_eq. by eapply lookup_lt_Some.
Qed.

Section Runs.
Import Session.
Variable c : config.

(** The cases of the exit of a test. *)
Lemma leave_turn_cases path rest out s s' w :
  leave_turn c path rest out s = (s', w) →
  (∃ e, out = Raise e ∧ s' = s ∧ w = Raised e)
  ∨ (∃ valid, out = Ok valid ∧ w = next_ext path rest
       ∧ found s' = found s ∧ requests s' = requests s + 1
       ∧ echoed s' = echoed s ++ (if valid then [path] else [])).
Proof.
  unfold leave_turn, valid_path. intros H.
  destruct out as [[|]|e]; injection H as <- <-.
  - right. exists true. by split_and!.
  - right. exists false. simpl. rewrite app_nil_r. by split_and!.
  - left. by exists e.
Qed.

Lemma next_ext_cases path rest :
  next_ext path rest = AtLoop
  ∨ ∃ fileExt rest', rest = fileExt :: rest' ∧ next_ext path rest = InTestPath path fileExt rest'.
Proof. destruct rest as [|fileExt rest']; [by left|right; eauto]. Qed.

(** What a turn of the loop leaves its task as. *)
Lemma loop_turn_worker id s s' w :
  length (workPools s) = length (poolFiles s) →
  loop_turn c id s = (s', w) →
  found s' = found s ∧ echoed s' = echoed s ∧ requests s' = requests s
  ∧ (w = Returned ∨ w = AtLoop
     ∨ ∃ path, w = next_ext path (extensions c)).
Proof.
  intros Hlen H.
  destruct (loop_turn_cases c _ _ _ _ H)
    as [(_ & -> & ->)|[(j & cf & _ & _ & -> & ->)
       |[(j & cf & line & file & _ & _ & -> & Hw)|(Hne & _)]]]; [| | |done];
    cbn [found echoed requests]; split_and!; try done; auto.
  destruct Hw as [[_ ->]|[_ ->]]; eauto.
Qed.

Lemma in_range_next_ext path rest : in_range (next_ext path rest).
Proof. by destruct rest. Qed.

Lemma step_in_range id r st st' :
  aligned (session st) → Forall in_range (workers st) →
  task_step c id r st = Some st' → Forall in_range (workers st').
Proof.
  intros [Hlen _] Hall H.
  destruct (task_step_cases c _ _ _ _ H) as (w0 & w & Hw0 & -> & Hcase).
  apply Forall_insert; [done|].
  destruct Hcase as [(_ & Ht)|[(p & e & rest & _ & Ht)|(p & e & rest & out & -> & Ht)]].
  - destruct (loop_turn_worker _ _ _ _ Hlen Ht) as (_ & _ & _ & [->|[->|[path ->]]]);
      [done..|apply in_range_next_ext].
  - destruct (test_turn_cases c _ _ _ _ _ _ _ Ht)
      as [(_ & _ & ->)|[(v & _ & _ & _ & ->)|[(v & _ & _ & _ & _ & ->)
         |(v & _ & _ & _ & _ & ->)]]]; done.
  - rewrite Forall_forall in Hall.
    pose proof (Hall _ (list_elem_of_lookup_2 _ _ _ Hw0)) as Hin.
    destruct (leave_turn_cases _ _ _ _ _ _ Ht)
      as [(e' & -> & _ & ->)|(valid & _ & -> & _)]; [|apply in_range_next_ext].
    by destruct e'.
Qed.

Lemma run_measure sched st st' :
  recursive c = false → run c sched st = Some st' →
  (length sched + measure c st' ≤ measure c st)%nat.
Proof.
  intros Hrec. revert st. induction sched as [|[id r] sched IH]; intros st H; simpl in H.
  - simplify_eq. simpl. lia.
  - destruct (task_step c id r st) as [st1|] eqn:H1; [|done].
    pose proof (step_measure c _ _ _ _ Hrec H1). specialize (IH _ H). simpl. lia.
Qed.

Lemma measure_start :
  measure c (start c)
  = (S (2 * length (extensions c)) * length (candidates c) + 1 + numTasks c)%nat.
Proof.
  unfold measure, pending. simpl.
  assert (∀ n, sum_list_with weight (replicate n AtLoop) = n) as ->.
  { induction n; simpl; lia. }
  lia.
Qed.

Lemma weight_raising_next_ext path rest :
  (weight_raising (next_ext path rest) ≤ S (length rest))%nat.
Proof. destruct rest; simpl; lia. Qed.

(** Against aiohttp a task sends one request at most. *)
Lemma step_measure_raising id r st st' :
  client c = Aiohttp → barren st →
  task_step c id r st = Some st' → (measure_raising c st' < measure_raising c st)%nat.
Proof.
  unfold measure_raising, pending. intros Hc (_ & _ & _ & _ & _ & _ & Hws) H.
  destruct (task_step_cases c _ _ _ _ H) as (w0 & w & Hw0 & -> & Hcase).
  pose proof (sum_list_with_insert weight_raising _ _ _ w Hw0) as Hins.
  destruct Hcase as [(-> & Ht)|[(p & e & rest & -> & Ht)|(p & e & rest & out & -> & Ht)]].
  - destruct (loop_turn_cases c _ _ _ _ Ht)
      as [(_ & -> & ->)|[(j & cf & Hj & Hf & -> & ->)
         |[(j & cf & line & file & Hj & Hf & -> & Hw)|(_ & -> & ->)]]];
      cbn [workPools poolFiles weight_raising] in *.
    + lia.
    + pose proof (sum_list_with_delete length _ _ _ Hf) as Hdel.
      pose proof (length_delete _ _ (mk_is_Some _ _ Hj)) as Hlen.
      pose proof (lookup_lt_Some _ _ _ Hj).
      rewrite Hlen, <- Hdel. cbn [length]. unfold str in *. lia.
    + pose proof (sum_list_with_insert length _ _ _ file Hf) as Hi.
      cbn [length] in Hi.
      assert (weight_raising w ≤ S (length (extensions c)))%nat as Hle.
      { destruct Hw as [[_ ->]|[_ ->]]; [simpl; lia|apply weight_raising_next_ext]. }
      assert (sum_list_with length (poolFiles (session st))
              = S (sum_list_with length (<[j:=file]> (poolFiles (session st))))) as ->
        by lia.
      rewrite Nat.mul_succ_r. lia.
    + lia.
  - destruct (test_turn_frame c _ _ _ _ _ _ _ Ht) as (-> & -> & _).
    assert (weight_raising w ≤ 1)%nat.
    { destruct (test_turn_cases c _ _ _ _ _ _ _ Ht)
        as [(_ & _ & ->)|[(v & _ & _ & _ & ->)|[(v & _ & _ & _ & _ & ->)
           |(v & _ & _ & _ & _ & ->)]]]; simpl; lia. }
    simpl in Hins. lia.
  - rewrite Forall_forall in Hws.
    pose proof (Hws _ (list_elem_of_lookup_2 _ _ _ Hw0)) as Hout.
    destruct out as [valid|e']; [done|].
    unfold leave_turn in Ht. injection Ht as <- <-. simpl in Hins. lia.
Qed.

Lemma run_measure_raising sched st st' :
  client c = Aiohttp → barren st → run c sched st = Some st' →
  (length sched + measure_raising c st' ≤ measure_raising c st)%nat.
Proof.
  intros Hc. revert st. induction sched as [|[id r] sched IH]; intros st Hb H; simpl in H.
  - simplify_eq. simpl. lia.
  - destruct (task_step c id r st) as [st1|] eqn:H1; [|done].
    pose proof (step_measure_raising _ _ _ _ Hc Hb H1).
    pose proof (step_barren c Hc _ _ _ _ Hb H1) as Hb1.
    specialize (IH _ Hb1 H). simpl. lia.
Qed.

Lemma measure_raising_start :
  measure_raising c (start c)
  = (S (length (extensions c)) * length (candidates c) + 1 + numTasks c)%nat.
Proof.
  unfold measure_raising, pending. simpl.
  assert (∀ n, sum_list_with weight_raising (replicate n AtLoop) = n) as ->.
  { induction n; simpl; lia. }
  lia.
Qed.

(** [found] grows only on a valid answer. *)
Lemma step_found id r st st' :
  task_step c id r st = Some st' →
  found (session st') = found (session st) ∨ valid_answer c r = true.
Proof.
  intros H.
  destruct (task_step_cases c _ _ _ _ H) as (w0 & w & Hw0 & _ & Hcase).
  destruct Hcase as [(_ & Ht)|[(p & e & rest & _ & Ht)|(p & e & rest & out & _ & Ht)]].
  - left. destruct (loop_turn_cases c _ _ _ _ Ht)
      as [(_ & -> & _)|[(j & cf & _ & _ & -> & _)
         |[(j & cf & line & file & _ & _ & -> & _)|(_ & -> & _)]]]; done.
  - destruct (test_turn_cases c _ _ _ _ _ _ _ Ht)
      as [(_ & -> & _)|[(v & _ & _ & -> & _)|[(v & _ & _ & _ & -> & _)
         |(v & -> & Hc & Hv & _)]]]; [by left..|].
    right. unfold valid_answer. by rewrite Hc.
  - left. destruct (leave_turn_cases _ _ _ _ _ _ Ht)
      as [(e' & _ & -> & _)|(valid & _ & _ & -> & _)]; done.
Qed.

End Runs.

Section Pairing.
Import Session.
Variable c : config.

Lemma on_extensions_next_ext path fileExt rest :
  (∃ pre, extensions c = pre ++ fileExt :: rest) →
  on_extensions c (next_ext path rest).
Proof.
  intros [pre Hpre]. destruct rest as [|fileExt' rest']; [done|]. simpl.
  exists (pre ++ [fileExt]). by rewrite <- app_assoc.
Qed.

Lemma on_extensions_first path : on_extensions c (next_ext path (extensions c)).
Proof. destruct (extensions c) as [|fileExt rest] eqn:He; [done|]. simpl. by exists []. Qed.

Lemma leaving_url_next_ext path rest : leaving_url c (next_ext path rest) = [].
Proof. by destruct rest. Qed.

Lemma step_paired id r st st' :
  Forall (on_extensions c) (workers st) ∧ paired c st
    ∧ Z.of_nat (length (echoed (session st))) ≤ requests (session st) →
  task_step c id r st = Some st' →
  Forall (on_extensions c) (workers st') ∧ paired c st'
    ∧ Z.of_nat (length (echoed (session st'))) ≤ requests (session st').
Proof.
  intros (Hon & (pairs & Hrec & Hfound & Hecho) & Hreq) H.
  destruct (task_step_cases c _ _ _ _ H) as (w0 & w & Hw0 & Hws & Hcase).
  pose proof (bind_insert_perm (fun w => leaving_url c w) _ _ _ w Hw0) as Hi.
  assert (on_extensions c w0) as Hon0.
  { rewrite Forall_forall in Hon. apply Hon. by eapply list_elem_of_lookup_2. }
  unfold paired. rewrite Hws.
  destruct Hcase as [(-> & Ht)|[(p & e & rest & -> & Ht)|(p & e & rest & out & -> & Ht)]].
  - assert (found (session st') = found (session st)
            ∧ echoed (session st') = echoed (session st)
            ∧ requests (session st') = requests (session st)
            ∧ on_extensions c w ∧ leaving_url c w = []) as (-> & -> & -> & Hw & Hl).
    { destruct (loop_turn_cases c _ _ _ _ Ht)
        as [(_ & -> & ->)|[(j & cf & _ & _ & -> & ->)
           |[(j & cf & line & file & _ & _ & -> & Hw)|(_ & -> & ->)]]];
        cbn [found echoed requests]; split_and!; try done.
      - destruct Hw as [[_ ->]|[_ ->]]; [done|apply on_extensions_first].
      - destruct Hw as [[_ ->]|[_ ->]]; [done|apply leaving_url_next_ext]. }
    rewrite Hl in Hi. simpl in Hi. rewrite !app_nil_r in Hi.
    split; [by apply Forall_insert|]. split; [|done].
    exists pairs. split_and!; [done| |done]. by rewrite Hi.
  - simpl in Hi. rewrite app_nil_r in Hi.
    destruct (test_turn_frame c _ _ _ _ _ _ _ Ht) as (_ & _ & _ & -> & -> & _).
    assert (on_extensions c w
            ∧ found (session st') = found (session st) ++ leaving_url c w) as (Hw & ->).
    { destruct (test_turn_cases c _ _ _ _ _ _ _ Ht)
        as [(_ & -> & ->)|[(v & _ & _ & -> & ->)|[(v & _ & _ & _ & -> & ->)
           |(v & _ & _ & _ & -> & ->)]]]; simpl; by rewrite ?app_nil_r. }
    split; [by apply Forall_insert|]. split; [|done].
    exists pairs. split_and!; [done| |done].
    rewrite Hi, Hfound. by rewrite app_assoc.
  - destruct (leave_turn_cases c _ _ _ _ _ _ Ht)
      as [(e' & -> & -> & ->)|(valid & -> & -> & -> & -> & ->)].
    + simpl in Hi. rewrite !app_nil_r in Hi.
      split; [by apply Forall_insert|]. split; [|done].
      exists pairs. split_and!; [done| |done]. by rewrite Hi.
    + rewrite leaving_url_next_ext, app_nil_r in Hi.
      split; [apply Forall_insert; [done|by apply (on_extensions_next_ext _ e)]|].
      split; [|rewrite length_app; destruct valid; simpl; lia].
      destruct valid.
      * exists (pairs ++ [(host c ++ (p ++ e), p)]). split_and!.
        -- apply Forall_app. split; [done|]. apply Forall_singleton.
           destruct Hon0 as [pre Hpre]. exists e. split; [|done].
           rewrite Hpre. apply elem_of_app. right. apply list_elem_of_here.
        -- rewrite fmap_app. simpl. rewrite Hfound, <- Hi. simpl.
           rewrite <- !app_assoc. apply Permutation_app_head, Permutation_app_comm.
        -- rewrite fmap_app. simpl. by rewrite Hecho.
      * simpl in Hi. rewrite !app_nil_r in *.
        exists pairs. split_and!; [done| |done]. by rewrite Hi.
Qed.

Lemma start_paired :
  Forall (on_extensions c) (workers (start c)) ∧ paired c (start c)
    ∧ Z.of_nat (length (echoed (session (start c)))) ≤ requests (session (start c)).
Proof.
  assert (∀ n, replicate n AtLoop ≫= (fun w => leaving_url c w) = []) as Hnil.
  { induction n as [|n IH]; csimpl; [done|]. by rewrite IH. }
  split; [|split; [|done]].
  - apply Forall_forall. intros w ->%elem_of_replicate_inv. done.
  - exists []. simpl. rewrite Hnil. by split_and!.
Qed.

Lemma final_leaving_url st :
  final c st → workers st ≫= (fun w => leaving_url c w) = [].
Proof.
  intros Hfin%final_inactive.
  induction Hfin as [|w ws Hw _ IH]; csimpl; [done|].
  rewrite IH. by destruct w.
Qed.

End Pairing.

Section Accounting.
Import Session.
Variable c : config.
Hypothesis Hrec : recursive c = false.

Lemma owed_next_ext path rest : owed (next_ext path rest) = length rest.
Proof. by destruct rest. Qed.

Lemma path_not_root (confirmed extension : str) :
  confirmed ++ py "/" ++ extension ∉ ({[ [] ]} : gset str).
Proof.
  intros H%elem_of_singleton. apply app_eq_nil in H as [_ H]. done.
Qed.

Lemma loop_turn_accounted id s s' w :
  seen s = {[ [] ]} → Forall (fun p => p = []) (workPools s) →
  loop_turn c id s = (s', w) →
  seen s' = {[ [] ]} ∧ Forall (fun p => p = []) (workPools s')
  ∧ (length (workPools s') ≤ length (workPools s))%nat
  ∧ requests s' = requests s
  ∧ (length (extensions c) * pending s' + owed w
     = length (extensions c) * pending s)%nat.
Proof.
  unfold pending. intros Hseen Hjobs H.
  destruct (loop_turn_cases c _ _ _ _ H)
    as [(_ & -> & ->)|[(j & cf & Hj & Hf & -> & ->)
       |[(j & cf & line & file & Hj & Hf & -> & Hw)|(_ & -> & ->)]]];
    cbn [workPools poolFiles seen requests owed].
  - split_and!; try done; lia.
  - pose proof (sum_list_with_delete length _ _ _ Hf) as Hdel.
    pose proof (length_delete _ _ (mk_is_Some _ _ Hj)) as Hlen.
    cbn [length] in Hdel.
    split_and!; [done|by apply Forall_delete|lia|done|]. rewrite <- Hdel. lia.
  - pose proof (sum_list_with_insert length _ _ _ file Hf) as Hins.
    cbn [length] in Hins.
    assert (confirmed_is_root : cf = []).
    { rewrite Forall_forall in Hjobs. apply Hjobs. by eapply list_elem_of_lookup_2. }
    destruct Hw as [[Hin _]|[_ ->]]; [rewrite Hseen in Hin; by destruct (path_not_root _ _ Hin)|].
    rewrite owed_next_ext. split_and!; [done|done|lia|done|].
    assert (sum_list_with length (poolFiles s)
            = S (sum_list_with length (<[j:=file]> (poolFiles s)))) as -> by lia.
    rewrite Nat.mul_succ_r. lia.
  - split_and!; try done; lia.
Qed.

(** Without recursion the job list only loses jobs and [seen] never grows. *)
Lemma step_root_only id r st st' :
  seen (session st) = {[ [] ]} ∧ Forall (fun p => p = []) (workPools (session st))
    ∧ (length (workPools (session st)) ≤ 1)%nat →
  task_step c id r st = Some st' →
  seen (session st') = {[ [] ]} ∧ Forall (fun p => p = []) (workPools (session st'))
    ∧ (length (workPools (session st')) ≤ 1)%nat.
Proof.
  intros (Hseen & Hjobs & Hlen) H.
  destruct (task_step_cases c _ _ _ _ H) as (w0 & w & _ & _ & Hcase).
  destruct Hcase as [(_ & Ht)|[(p & e & rest & _ & Ht)|(p & e & rest & out & _ & Ht)]].
  - destruct (loop_turn_accounted _ _ _ _ Hseen Hjobs Ht) as (? & ? & ? & _).
    split_and!; [done..|lia].
  - destruct (test_turn_frame c _ _ _ _ _ _ _ Ht) as (-> & _ & -> & _). done.
  - destruct (leave_turn_frame c _ _ _ _ _ _ Hrec Ht) as (-> & _ & -> & _). done.
Qed.

Lemma step_accounted id r st st' :
  accounted c st → task_step c id r st = Some st' → accounted c st'.
Proof.
  unfold accounted, outstanding. intros (Hseen & Hjobs & Hle & Heq) H.
  destruct (task_step_cases c _ _ _ _ H) as (w0 & w & Hw0 & Hws & Hcase).
  pose proof (sum_list_with_insert owed _ _ _ w Hw0) as Hins.
  rewrite Hws.
  assert (seen (session st') = {[ [] ]}
          ∧ Forall (fun p => p = []) (workPools (session st'))
          ∧ active w0 = true
          ∧ ((Z.of_nat (length (extensions c) * pending (session st') + owed w)
              + requests (session st')
              = Z.of_nat (length (extensions c) * pending (session st) + owed w0)
                + requests (session st))
             ∨ ((∃ e, w = Raised e)
                ∧ Z.of_nat (length (extensions c) * pending (session st') + owed w)
                  + requests (session st')
                  ≤ Z.of_nat (length (extensions c) * pending (session st) + owed w0)
                    + requests (session st))))
    as (Hseen' & Hjobs' & Hact & Hsum).
  { destruct Hcase as [(-> & Ht)|[(p & e & rest & -> & Ht)|(p & e & rest & out & -> & Ht)]].
    - destruct (loop_turn_accounted _ _ _ _ Hseen Hjobs Ht) as (? & ? & _ & -> & Hp).
      split_and!; [done..|]. left. simpl. lia.
    - destruct (test_turn_frame c _ _ _ _ _ _ _ Ht) as (-> & Hf & -> & -> & _).
      unfold pending. rewrite Hf. split_and!; [done..|].
      destruct (test_turn_cases c _ _ _ _ _ _ _ Ht)
        as [(_ & _ & ->)|[(v & _ & _ & _ & ->)|[(v & _ & _ & _ & _ & ->)
           |(v & _ & _ & _ & _ & ->)]]]; [right|left..]; simpl; [|lia..].
      split; [by eexists|lia].
    - destruct (leave_turn_frame c _ _ _ _ _ _ Hrec Ht) as (-> & Hf & -> & _).
      unfold pending. rewrite Hf. split_and!; [done..|].
      destruct (leave_turn_cases c _ _ _ _ _ _ Ht)
        as [(e' & _ & -> & ->)|(valid & _ & -> & _ & -> & _)].
      + right. simpl. split; [by eexists|lia].
      + left. rewrite owed_next_ext. simpl. lia. }
  split; [done|]. split; [done|].
  destruct Hsum as [Hsum|[[e ->] Hsum]].
  - split; [lia|]. intros Hno.
    assert (∀ e, Raised e ∉ workers st) as Hno0.
    { intros e He. apply (Hno e). eapply elem_of_insert_other; [done..|].
      intros <-. done. }
    specialize (Heq Hno0). lia.
  - split; [simpl in *; lia|]. intros Hno. destruct (Hno e).
    by eapply elem_of_insert_here.
Qed.

Lemma start_accounted : accounted c (start c).
Proof.
  unfold accounted, outstanding, pending. simpl.
  assert (∀ n, sum_list_with owed (replicate n AtLoop) = 0%nat) as ->.
  { induction n; simpl; lia. }
  split; [done|]. split; [by repeat constructor|]. split; [lia|]. intros _. lia.
Qed.

Lemma run_accounted sched st : after c sched = Some st → accounted c st.
Proof.
  intros Hrun.
  apply (run_invariant c (accounted c) (fun _ => True) sched (start c) st);
    [|by apply Forall_true|apply start_accounted|done].
  intros id r st1 st2 _ Ha Hstep. by eapply step_accounted.
Qed.

End Accounting.

(** X19.  On every run, a prefix that stands in the job list at some point
    is in [seen] at that point and at every later one. *)
Theorem job_prefixes_stay_seen c sched1 sched2 st1 st2 p :
  after c sched1 = Some st1 →
  Session.run c sched2 st1 = Some st2 →
  p ∈ Session.workPools (Session.session st1) →
  p ∈ Session.seen (Session.session st2).
Proof.
  intros H1 H2 Hp.
  destruct (run_aligned_seen c _ _ _ (start_aligned c) H1) as [Hal _].
  destruct (run_aligned_seen c _ _ _ Hal H2) as [_ Hsub].
  destruct Hal as [_ Hseen]. apply Hsub. by apply Hseen.
Qed.

(** X20.  On every run the job list and the list of sources have the same
    length, so that the task that indexes the sources by the position of a
    job never indexes past them: no task ends with [IndexError]. *)
Theorem jobs_and_sources_stay_aligned c sched st :
  after c sched = Some st →
  length (Session.workPools (Session.session st))
  = length (Session.poolFiles (Session.session st))
  ∧ Session.Raised IndexError ∉ Session.workers st.
Proof.
  intros Hrun.
  apply (run_invariant c
           (fun st => aligned (Session.session st) ∧ Forall in_range (Session.workers st))
           (fun _ => True) sched (Session.start c) st) in Hrun
    as [[Hlen _] Hall]; [| |by apply Forall_true|].
  - split; [done|]. intros Hin. rewrite Forall_forall in Hall. by apply (Hall _ Hin).
  - intros id r st1 st2 _ [Hal Hold] Hstep. split.
    + by destruct (step_aligned c _ _ _ _ Hal Hstep).
    + by eapply step_in_range.
  - split; [apply start_aligned|].
    apply Forall_forall. intros w ->%elem_of_replicate_inv. done.
Qed.

(** X21.  On every run the discoveries and the echoed paths pair off: there
    is a list of pairs of a URL and a path, the URL being the host, the path
    and one of the extensions, such that the echoed paths are the paths of
    the pairs and [found] holds the URLs of the pairs together with the URL
    of every task that has appended its discovery and is leaving the request
    before it echoes the path, each up to the order; every echoed path has
    been counted in [requests]; and at the end of a run [found] holds the
    URLs of the pairs and nothing else. *)
Theorem discoveries_pair_with_echoed_paths c sched st :
  after c sched = Some st →
  paired c st
  ∧ Z.of_nat (length (Session.echoed (Session.session st)))
    ≤ Session.requests (Session.session st)
  ∧ (Session.final c st →
     ∃ pairs : list (str * str),
       Forall (recorded c) pairs
       ∧ Session.found (Session.session st) ≡ₚ pairs.*1
       ∧ Session.echoed (Session.session st) ≡ₚ pairs.*2).
Proof.
  intros Hrun.
  apply (run_invariant c
           (fun st => Forall (on_extensions c) (Session.workers st) ∧ paired c st
                      ∧ Z.of_nat (length (Session.echoed (Session.session st)))
                        ≤ Session.requests (Session.session st))
           (fun _ => True) sched (Session.start c) st) in Hrun
    as (_ & Hp & Hreq); [| |by apply Forall_true|apply start_paired].
  - split; [done|]. split; [done|]. intros Hfin.
    destruct Hp as (pairs & Hrec & Hfound & Hecho). exists pairs.
    rewrite (final_leaving_url c st Hfin), app_nil_r in Hfound. done.
  - intros id r st1 st2 _ Hinv Hstep. by eapply step_paired.
Qed.

(** X22.  A discovery needs an answer whose status is one of the strings of
    the valid set: on a run that has found something, some request was
    answered with such a string. *)
Theorem discovery_needs_a_string_status c sched st :
  after c sched = Some st →
  Session.found (Session.session st) ≠ [] →
  ∃ id s, (id, Status (PyStr s)) ∈ sched ∧ s ∈ Session.validStatus c.
Proof.
  intros Hrun Hfound.
  destruct (decide (Exists (fun e => valid_answer c (snd e) = true) sched)) as [Hex|Hno].
  - apply Exists_exists in Hex as ([id r] & Hin & Hv). simpl in Hv.
    unfold valid_answer in Hv.
    destruct r as [[z|s]|]; destruct (Session.client c); simpl in Hv; try done.
    exists id, s. split; [done|]. by apply bool_decide_eq_true in Hv.
  - exfalso. apply Hfound.
    apply (run_invariant c (fun st => Session.found (Session.session st) = [])
             (fun r => valid_answer c r = false) sched (Session.start c) st);
      [| |done|done].
    + intros id r st1 st2 Hr Hf Hstep.
      destruct (step_found c _ _ _ _ Hstep) as [->|Hv]; [done|congruence].
    + apply Forall_forall. intros e He.
      destruct (valid_answer c (snd e)) eqn:Hv; [|done].
      destruct Hno. apply Exists_exists. eauto.
Qed.

(** X23.  Without recursion no job is ever created and no prefix is marked:
    on every run the job list is the root job alone or empty, and [seen]
    holds the root prefix only. *)
Theorem without_recursion_no_job_is_created c sched st :
  Session.recursive c = false →
  after c sched = Some st →
  Session.seen (Session.session st) = {[ [] ]}
  ∧ (Session.workPools (Session.session st) = [[]]
     ∨ Session.workPools (Session.session st) = []).
Proof.
  intros Hrec Hrun.
  apply (run_invariant c
           (fun st => Session.seen (Session.session st) = {[ [] ]}
                      ∧ Forall (fun p => p = []) (Session.workPools (Session.session st))
                      ∧ (length (Session.workPools (Session.session st)) ≤ 1)%nat)
           (fun _ => True) sched (Session.start c) st) in Hrun
    as (Hseen & Hjobs & Hlen); [| |by apply Forall_true|].
  - split; [done|]. destruct (Session.workPools (Session.session st)) as [|p [|q jobs]];
      [by right| |simpl in Hlen; lia].
    apply Forall_cons in Hjobs as [-> _]. by left.
  - intros id r st1 st2 _ Hinv Hstep. by eapply step_root_only.
  - simpl. split; [done|]. split; [by repeat constructor|lia].
Qed.

(** X24.  Without recursion no candidate is requested more than once with
    an extension: on every run [requests] is at most the number of
    candidates times the number of extensions; and when a run with at least
    one task has come to its end and no task has ended with an exception,
    [requests] is that number, whatever the number of tasks and the order of
    their steps. *)
Theorem requests_are_counted_once c sched st :
  Session.recursive c = false →
  after c sched = Some st →
  Session.requests (Session.session st)
  ≤ Z.of_nat (length (Session.extensions c) * length (Session.candidates c))
  ∧ ((1 ≤ Session.numTasks c)%nat → Session.final c st → ¬ Session.crashed st →
     Session.requests (Session.session st)
     = Z.of_nat (length (Session.extensions c) * length (Session.candidates c))).
Proof.
  intros Hrec Hrun.
  destruct (run_accounted c Hrec sched st Hrun) as (_ & _ & Hle & Heq).
  split; [lia|]. intros HT Hfin Hcr.
  destruct (final_settled c st HT (run_settled c sched st Hrec Hrun) Hfin Hcr)
    as (_ & Hfiles & Hall).
  assert (sum_list_with owed (Session.workers st) = 0%nat) as Hz.
  { clear -Hall. induction Hall as [|w ws -> _ IH]; simpl; [done|]. exact IH. }
  unfold outstanding, pending in Heq. rewrite Hfiles, Hz in Heq. simpl in Heq.
  rewrite Nat.mul_0_r in Heq. simpl in Heq. apply Heq.
  intros e He. apply Hcr. by exists e.
Qed.

(** X25.  Without recursion a run takes at most
    [(2 * extensions + 1) * candidates + 1 + tasks] steps, a step being a
    turn of the loop, the answer to a request or the exit of a request; and
    a run of the session as [start] runs it, where no test returns, takes at
    most [(extensions + 1) * candidates + 1 + tasks] steps. *)
Theorem run_length_is_bounded c sched st :
  Session.recursive c = false →
  after c sched = Some st →
  (length sched ≤ S (2 * length (Session.extensions c)) * length (Session.candidates c)
                  + 1 + Session.numTasks c)%nat
  ∧ (Session.client c = Aiohttp →
     (length sched ≤ S (length (Session.extensions c)) * length (Session.candidates c)
                     + 1 + Session.numTasks c)%nat).
Proof.
  intros Hrec Hrun. split.
  - pose proof (run_measure c _ _ _ Hrec Hrun) as H.
    rewrite measure_start in H. lia.
  - intros Hc.
    pose proof (run_measure_raising c _ _ _ Hc (start_barren c) Hrun) as H.
    rewrite measure_raising_start in H. lia.
Qed.

(** With a client whose status can be awaited a test takes two steps, and
    the shorter bound does not hold. *)
Lemma awaited_status_takes_longer :
  let c := stand_in (wordlist_config 1 [py "admin"] false None) in
  let no := Status (PyInt 404) in
  let sched := [turn 0; answer 0 no; turn 0; answer 0 no; turn 0; turn 0; turn 0] in
  is_Some (after c sched)
  ∧ ¬ (length sched ≤ S (length (Session.extensions c)) * length (Session.candidates c)
                      + 1 + Session.numTasks c)%nat.
Proof.
  intros c no sched. split; [vm_compute; by eexists|]. vm_compute. lia.
Qed.

(** With a client whose status can be awaited and answers with a string of
    the valid set, two valid extensions of one path put its prefix into the
    job list twice. *)
Lemma awaited_status_repeats_the_job :
  let c := stand_in (wordlist_config 1 [py "admin"] true None) in
  let ok := Status (PyStr (py "200")) in
  (Session.workPools ∘ Session.session)
    <$> after c [turn 0; answer 0 ok; turn 0; answer 0 ok; turn 0]
  = Some [[]; py "/admin"; py "/admin"].
Proof. vm_compute. reflexivity. Qed.

(** * Runs the theorems above apply to *)

Lemma job_prefixes_stay_seen_witness :
  let c := stand_in (wordlist_config 1 [py "admin"] true None) in
  let ok := Status (PyStr (py "200")) in
  py "/admin" ∈ Session.seen (Session.session
                  (state_after c [turn 0; answer 0 ok; turn 0; answer 0 ok; turn 0])).
Proof.
  intros c ok.
  apply (job_prefixes_stay_seen c [turn 0; answer 0 ok; turn 0] [answer 0 ok; turn 0]
           (state_after c [turn 0; answer 0 ok; turn 0])
           (state_after c [turn 0; answer 0 ok; turn 0; answer 0 ok; turn 0])
           (py "/admin")).
  - vm_compute. reflexivity.
  - vm_compute. reflexivity.
  - apply (bool_decide_unpack _). vm_compute. exact I.
Defined.

Lemma jobs_and_sources_stay_aligned_witness :
  let c := wordlist_config 2 [py "admin"; py "user"] true None in
  let st := state_after c [turn 1; turn 0; answer 1 Failed; answer 0 (Status (PyInt 200));
                           turn 0] in
  length (Session.workPools (Session.session st))
  = length (Session.poolFiles (Session.session st))
  ∧ Session.Raised IndexError ∉ Session.workers st.
Proof.
  intros c st.
  apply (jobs_and_sources_stay_aligned c
           [turn 1; turn 0; answer 1 Failed; answer 0 (Status (PyInt 200)); turn 0]).
  vm_compute. reflexivity.
Defined.

Lemma discoveries_pair_with_echoed_paths_witness :
  let c := stand_in (wordlist_config 1 [py "admin"] true None) in
  let st := state_after c [turn 0; answer 0 (Status (PyStr (py "200"))); turn 0;
                           answer 0 (Status (PyInt 404)); turn 0] in
  paired c st
  ∧ Z.of_nat (length (Session.echoed (Session.session st)))
    ≤ Session.requests (Session.session st)
  ∧ (Session.final c st →
     ∃ pairs : list (str * str),
       Forall (recorded c) pairs
       ∧ Session.found (Session.session st) ≡ₚ pairs.*1
       ∧ Session.echoed (Session.session st) ≡ₚ pairs.*2).
Proof.
  intros c st.
  apply (discoveries_pair_with_echoed_paths c
           [turn 0; answer 0 (Status (PyStr (py "200"))); turn 0;
            answer 0 (Status (PyInt 404)); turn 0]).
  vm_compute. reflexivity.
Defined.

Lemma discovery_needs_a_string_status_witness :
  let c := stand_in (wordlist_config 1 [py "admin"] false None) in
  let sched := [turn 0; answer 0 (Status (PyStr (py "200")))] in
  ∃ id s, (id, Status (PyStr s)) ∈ sched ∧ s ∈ Session.validStatus c.
Proof.
  intros c sched.
  apply (discovery_needs_a_string_status c sched (state_after c sched)).
  - vm_compute. reflexivity.
  - vm_compute. discriminate.
Defined.

Lemma without_recursion_no_job_is_created_witness :
  let c := wordlist_config 2 [py "admin"] false None in
  let st := state_after c [turn 1; turn 0; answer 1 (Status (PyStr (py "200")))] in
  Session.seen (Session.session st) = {[ [] ]}
  ∧ (Session.workPools (Session.session st) = [[]]
     ∨ Session.workPools (Session.session st) = []).
Proof.
  intros c st.
  apply (without_recursion_no_job_is_created c
           [turn 1; turn 0; answer 1 (Status (PyStr (py "200")))]).
  - reflexivity.
  - vm_compute. reflexivity.
Defined.

Lemma requests_are_counted_once_witness :
  let c := stand_in (wordlist_config 2 [py "admin"; py "user"] false None) in
  let ok := Status (PyStr (py "200")) in
  let no := Status (PyInt 404) in
  let sched := [turn 0; turn 1; answer 1 no; turn 1; answer 0 ok; turn 0; answer 0 no;
                turn 0; answer 1 no; turn 1; turn 1; turn 0; turn 1] in
  let st := state_after c sched in
  Session.requests (Session.session st)
  ≤ Z.of_nat (length (Session.extensions c) * length (Session.candidates c))
  ∧ ((1 ≤ Session.numTasks c)%nat → Session.final c st → ¬ Session.crashed st →
     Session.requests (Session.session st)
     = Z.of_nat (length (Session.extensions c) * length (Session.candidates c))).
Proof.
  intros c ok no sched st.
  apply (requests_are_counted_once c sched st).
  - reflexivity.
  - vm_compute. reflexivity.
Defined.

Lemma run_length_is_bounded_witness :
  let c := wordlist_config 1 [py "admin"] false None in
  let no := Status (PyInt 404) in
  let sched := [turn 0; answer 0 no; turn 0] in
  (length sched ≤ S (2 * length (Session.extensions c)) * length (Session.candidates c)
                  + 1 + Session.numTasks c)%nat
  ∧ (Session.client c = Aiohttp →
     (length sched ≤ S (length (Session.extensions c)) * length (Session.candidates c)
                     + 1 + Session.numTasks c)%nat).
Proof.
  intros c no sched.
  apply (run_length_is_bounded c sched (state_after c sched)).
  - reflexivity.
  - vm_compute. reflexivity.
Defined.

(** * The session: what is found does not depend on the schedule *)

Section Found.
Import Session.
Variable c : config.
Variable tester : str → response.
Hypothesis Hrec : recursive c = false.
Hypothesis Htester : ∀ url, tester url ≠ Failed.

Lemma in_flight_next_ext path rest :
  in_flight c tester (next_ext path rest) = finds c tester path rest.
Proof. by destruct rest. Qed.

Lemma finds_cons path fileExt rest :
  finds c tester path (fileExt :: rest)
  = (if valid_answer c (tester (host c ++ (path ++ fileExt)))
     then [host c ++ (path ++ fileExt)] else [])
    ++ finds c tester path rest.
Proof. reflexivity. Qed.

(** Against aiohttp no URL tests valid. *)
Lemma finds_aiohttp path exts : client c = Aiohttp → finds c tester path exts = [].
Proof.
  intros Hc. induction exts as [|fileExt rest IH]; [done|].
  rewrite finds_cons, IH. unfold valid_answer. rewrite Hc.
  by destruct (tester _).
Qed.

Lemma valid_urls_aiohttp : client c = Aiohttp → valid_urls c tester = [].
Proof.
  intros Hc. unfold valid_urls.
  induction (candidates c) as [|line file IH]; csimpl; [done|].
  rewrite IH. unfold finds_of_line. by rewrite finds_aiohttp.
Qed.

Lemma loop_turn_to_come id s s' w :
  seen s = {[ [] ]} → Forall (fun p => p = []) (workPools s) →
  loop_turn c id s = (s', w) →
  found s' = found s
  ∧ in_flight c tester w ++ (file ← poolFiles s'; line ← file; finds_of_line c tester line)
    ≡ₚ (file ← poolFiles s; line ← file; finds_of_line c tester line).
Proof.
  intros Hseen Hjobs H.
  destruct (loop_turn_cases c _ _ _ _ H)
    as [(_ & -> & ->)|[(j & cf & Hj & Hf & -> & ->)
       |[(j & cf & line & file & Hj & Hf & -> & Hw)|(_ & -> & ->)]]];
    cbn [found poolFiles in_flight app]; (split; [done|]); try done.
  - pose proof (bind_delete_perm (fun file => line ← file; finds_of_line c tester line)
                  _ _ _ Hf) as Hd.
    simpl in Hd. by rewrite app_nil_r in Hd.
  - assert (cf = []) as ->.
    { rewrite Forall_forall in Hjobs. apply Hjobs. by eapply list_elem_of_lookup_2. }
    destruct Hw as [[Hin _]|[_ ->]];
      [rewrite Hseen in Hin; by destruct (path_not_root _ _ Hin)|].
    rewrite in_flight_next_ext.
    pose proof (bind_insert_perm (fun file => line ← file; finds_of_line c tester line)
                  _ _ _ file Hf) as Hi.
    cbv beta in Hi. rewrite bind_cons, app_assoc in Hi.
    apply Permutation_app_inv_r in Hi.
    etrans; [apply Permutation_app_comm|exact Hi].
Qed.

Lemma test_turn_to_come path fileExt rest s s' w :
  client c = StandIn →
  test_turn c path fileExt rest (tester (host c ++ (path ++ fileExt))) s = (s', w) →
  poolFiles s' = poolFiles s
  ∧ ∃ new, found s' = found s ++ new
           ∧ in_flight c tester (InTestPath path fileExt rest)
             = new ++ in_flight c tester w.
Proof.
  intros Hc H.
  destruct (test_turn_frame c _ _ _ _ _ _ _ H) as (_ & -> & _). split; [done|].
  cbn [in_flight]. rewrite finds_cons. unfold valid_answer. rewrite Hc.
  destruct (test_turn_cases c _ _ _ _ _ _ _ H)
    as [(Hr & _)|[(v & _ & Hc' & _)|[(v & -> & _ & -> & -> & ->)
       |(v & -> & _ & -> & -> & ->)]]]; [by destruct (Htester _ Hr)|congruence| |].
  - exists []. by rewrite app_nil_r.
  - by eexists.
Qed.

Lemma leave_turn_to_come path fileExt rest out s s' w :
  leave_turn c path rest out s = (s', w) →
  poolFiles s' = poolFiles s ∧ found s' = found s
  ∧ in_flight c tester w = in_flight c tester (Leaving path fileExt rest out).
Proof.
  intros H.
  destruct (leave_turn_frame c _ _ _ _ _ _ Hrec H) as (_ & -> & _ & -> & _).
  split; [done|]. split; [done|].
  destruct (leave_turn_cases c _ _ _ _ _ _ H)
    as [(e' & -> & _ & ->)|(valid & -> & -> & _)]; [done|].
  apply in_flight_next_ext.
Qed.

Lemma step_to_come id st st' :
  client c = StandIn →
  seen (session st) = {[ [] ]} →
  Forall (fun p => p = []) (workPools (session st)) →
  task_step c id (answer_of c tester st id) st = Some st' →
  found_and_to_come c tester st' ≡ₚ found_and_to_come c tester st.
Proof.
  unfold answer_of, found_and_to_come. intros Hc Hseen Hjobs H.
  destruct (task_step_cases c _ _ _ _ H) as (w0 & w & Hw0 & Hws & Hcase).
  pose proof (bind_insert_perm (fun w => in_flight c tester w) _ _ _ w Hw0) as Hi.
  rewrite Hws. rewrite Hw0 in Hcase.
  destruct Hcase as [(-> & Ht)|[(p & e & rest & -> & Ht)|(p & e & rest & out & -> & Ht)]].
  - destruct (loop_turn_to_come _ _ _ _ Hseen Hjobs Ht) as (-> & Hp).
    cbn [in_flight] in Hi. rewrite app_nil_r in Hi.
    apply Permutation_app_head. rewrite Hi, <- app_assoc.
    by apply Permutation_app_head.
  - destruct (test_turn_to_come _ _ _ _ _ _ Hc Ht) as (-> & new & -> & Hold).
    rewrite Hold, app_assoc in Hi. apply Permutation_app_inv_r in Hi.
    rewrite <- (app_assoc (found (session st))), !(app_assoc new).
    apply Permutation_app_head, Permutation_app_tail.
    etrans; [apply Permutation_app_comm|exact Hi].
  - destruct (leave_turn_to_come _ e _ _ _ _ _ Ht) as (-> & -> & Hsame).
    rewrite Hsame in Hi. apply Permutation_app_inv_r in Hi.
    apply Permutation_app_head, Permutation_app_tail. exact Hi.
Qed.

Lemma run_tasks_answered ids st st' :
  run_tasks c tester ids st = Some st' →
  ∃ sched, answered sched ∧ run c sched st = Some st' ∧ length sched = length ids.
Proof.
  revert st. induction ids as [|id ids IH]; intros st H; simpl in H.
  - simplify_eq. exists []. split_and!; [constructor|done..].
  - destruct (task_step c id (answer_of c tester st id) st) as [st1|] eqn:H1; [|done].
    destruct (IH _ H) as (sched & Ha & Hr & Hl).
    exists ((id, answer_of c tester st id) :: sched). split_and!.
    + constructor; [|done]. simpl. unfold answer_of.
      repeat case_match; (done || apply Htester).
    + simpl. by rewrite H1.
    + simpl. by rewrite Hl.
Qed.

Lemma run_tasks_to_come ids st st' :
  client c = StandIn →
  seen (session st) = {[ [] ]} →
  Forall (fun p => p = []) (workPools (session st)) →
  (length (workPools (session st)) ≤ 1)%nat →
  run_tasks c tester ids st = Some st' →
  found_and_to_come c tester st' ≡ₚ found_and_to_come c tester st.
Proof.
  intros Hc. revert st.
  induction ids as [|id ids IH]; intros st Hseen Hjobs Hlen H; simpl in H.
  - by simplify_eq.
  - destruct (task_step c id (answer_of c tester st id) st) as [st1|] eqn:H1; [|done].
    destruct (step_root_only c Hrec _ _ _ _ (conj Hseen (conj Hjobs Hlen)) H1)
      as (? & ? & ?).
    rewrite IH by done. by apply (step_to_come id).
Qed.

Lemma to_come_start : found_and_to_come c tester (start c) = valid_urls c tester.
Proof.
  unfold found_and_to_come, valid_urls, start, init. cbn [session workers found poolFiles].
  assert (∀ n, replicate n AtLoop ≫= (fun w => in_flight c tester w) = []) as ->.
  { induction n as [|n IH]; csimpl; [done|]. by rewrite IH. }
  csimpl. by rewrite app_nil_r.
Qed.

Lemma to_come_final st :
  poolFiles (session st) = [] → Forall (fun w => w = Returned) (workers st) →
  found_and_to_come c tester st = found (session st).
Proof.
  unfold found_and_to_come. intros -> Hall.
  assert (workers st ≫= (fun w => in_flight c tester w) = []) as ->.
  { induction Hall as [|w ws -> _ IH]; csimpl; [done|]. by rewrite IH. }
  csimpl. by rewrite app_nil_r.
Qed.

Lemma sound_next_ext path rest : sound (next_ext path rest).
Proof. by destruct rest. Qed.

(** With a status that can be awaited and every request answered, no task
    raises. *)
Lemma step_sound id r st st' :
  client c = StandIn → r ≠ Failed →
  aligned (session st) → Forall sound (workers st) →
  task_step c id r st = Some st' → Forall sound (workers st').
Proof.
  intros Hc Hr [Hlen _] Hall H.
  destruct (task_step_cases c _ _ _ _ H) as (w0 & w & Hw0 & -> & Hcase).
  apply Forall_insert; [done|].
  destruct Hcase as [(_ & Ht)|[(p & e & rest & _ & Ht)|(p & e & rest & out & -> & Ht)]].
  - destruct (loop_turn_worker c _ _ _ _ Hlen Ht) as (_ & _ & _ & [->|[->|[path ->]]]);
      [done..|apply sound_next_ext].
  - destruct (test_turn_cases c _ _ _ _ _ _ _ Ht)
      as [(? & _)|[(v & _ & ? & _)|[(v & _ & _ & _ & _ & ->)
         |(v & _ & _ & _ & _ & ->)]]]; [done|congruence|done..].
  - rewrite Forall_forall in Hall.
    pose proof (Hall _ (list_elem_of_lookup_2 _ _ _ Hw0)) as Hin.
    destruct (leave_turn_cases c _ _ _ _ _ _ Ht)
      as [(e' & -> & _)|(valid & _ & -> & _)]; [done|apply sound_next_ext].
Qed.

Lemma run_sound sched st :
  client c = StandIn → answered sched → after c sched = Some st →
  Forall sound (workers st).
Proof.
  intros Hc Hans Hrun.
  apply (run_invariant c
           (fun st => aligned (session st) ∧ Forall sound (workers st))
           (fun r => r ≠ Failed) sched (start c) st) in Hrun as [_ Hall];
    [done| |done|].
  - intros id r st1 st2 Hr [Hal Hall] Hstep. split.
    + by destruct (step_aligned c _ _ _ _ Hal Hstep).
    + by eapply step_sound.
  - split; [apply start_aligned|].
    apply Forall_forall. intros w ->%elem_of_replicate_inv. done.
Qed.

End Found.

(** X26.  Without recursion, against a tester that answers every request
    with a status fixed by the URL, a run that has come to its end has found
    exactly the URLs that test valid among the candidates and extensions,
    each as often as it occurs there: the same ones, up to their order,
    whatever the number of tasks and the order of their steps. *)
Theorem found_does_not_depend_on_the_schedule c tester ids st :
  Session.recursive c = false →
  (1 ≤ Session.numTasks c)%nat →
  (∀ url, tester url ≠ Failed) →
  run_tasks c tester ids (Session.start c) = Some st →
  Session.final c st →
  Session.found (Session.session st) ≡ₚ valid_urls c tester.
Proof.
  intros Hrec HT Htester Hrun Hfin.
  destruct (run_tasks_answered c tester Htester _ _ _ Hrun) as (sched & Hans & Hsched & _).
  destruct (Session.client c) eqn:Hc.
  - destruct (run_barren c Hc sched st Hsched) as (_ & _ & _ & -> & _).
    by rewrite valid_urls_aiohttp.
  - pose proof (run_tasks_to_come c tester Hrec Htester ids (Session.start c) st Hc
                  eq_refl ltac:(by repeat constructor) ltac:(simpl; lia) Hrun) as Hperm.
    pose proof (run_sound c sched st Hc Hans Hsched) as Hsound.
    assert (¬ Session.crashed st) as Hcr.
    { intros [e He]. rewrite Forall_forall in Hsound. by apply (Hsound _ He). }
    destruct (final_settled c st HT (run_settled c sched st Hrec Hsched) Hfin Hcr)
      as (_ & Hfiles & Hall).
    by rewrite to_come_start, (to_come_final c tester st Hfiles Hall) in Hperm.
Qed.

Lemma found_does_not_depend_on_the_schedule_witness :
  let c := stand_in (wordlist_config 2 [py "user"; py "admin"] false None) in
  let ids := [0; 1; 1; 1; 0; 0; 0; 0; 1; 1; 1; 0; 1]%nat in
  Session.found (Session.session (state_of_tasks c admin_tester ids))
  ≡ₚ valid_urls c admin_tester.
Proof.
  intros c ids.
  apply (found_does_not_depend_on_the_schedule c admin_tester ids).
  - reflexivity.
  - simpl. lia.
  - intros url. unfold admin_tester. case_bool_decide; discriminate.
  - vm_compute. reflexivity.
  - apply final_inactive. vm_compute. repeat constructor.
Defined.
